(** * The database manager of stellar-core: [src/database/Database.cpp]

    A shallow embedding of [stellar::Database] and of [SQLLogContext],
    followed by the properties of the manager that its specification
    states.

    The manager is stateful C++: it owns a primary soci session, a lazily
    built connection pool, a cache of prepared statements and it talks to a
    process-wide driver registry and to the logger.  The embedding keeps
    that shape: every method is a computation in a small state-and-exception
    monad over the state of the process and of the [Database] object, heap
    objects ([make_shared], [make_unique]) live in a store indexed by
    addresses, and the backing store is an oracle that decides which backend
    call fails.

    soci is a library the manager links against: a session is modelled by
    what the manager can observe of it (what it was opened on, what was sent
    to it, where it traces its queries).  The four timers and [initialize]
    only forward to the metrics registry and to the [dropAll] of other
    classes; they are left out.  Threads are not modelled: the manager has
    no lock of its own and is driven by one caller at a time. *)

From stdpp Require Import gmap strings list fin_maps pretty.

(** ** Values the code manipulates *)

(** Addresses of heap objects. *)
Definition loc := positive.

(** What a C++ exception carries.  [getPool] throws [std::runtime_error];
    soci reports every backend failure with [soci::soci_error]. *)
Inductive exception :=
  | runtime_error (what : string)
  | soci_error (what : string).

(** Outcome of a call: a normal return, an exception that unwinds to the
    caller, or a failed [assert], which aborts the process. *)
Inductive Result (A : Type) :=
  | Ok (a : A)
  | Throw (e : exception)
  | Abort.
Arguments Ok {A} a.
Arguments Throw {A} e.
Arguments Abort {A}.

(** [soci::session], reduced to what the manager does with it: the connect
    string it was opened with, the SQL sent through [operator<<] (oldest
    first) and the stream [set_log_stream] installed, if any. *)
Record session := Session {
  connectString : option string;
  executed : list string;
  logStream_ : option loc;
}.

Definition new_session : session :=
  {| connectString := None; executed := []; logStream_ := None |}.

(** A [soci::session&]: the primary session is a member of the manager, a
    pooled session is slot [i] of the pool object at [pool]. *)
Inductive session_ref :=
  | mSession_ref
  | pool_entry (pool : loc) (i : nat).

(** Objects on the heap. *)
Inductive object :=
  | ObjStatement (query_ : string)
      (* soci::statement, with the text it was last asked to prepare *)
  | ObjPool (sessions_ : list session)
      (* soci::connection_pool *)
  | ObjSQLLogContext (mName : string) (mSess : session_ref) (mCapture : string).

(** Severities used by this file, and a line handed to the logger:
    [CLOG(level, logger) << text]; [LOG(level)] is the logger "default". *)
Inductive Level := INFO | DEBUG.

Record LogLine := Line {
  level : Level;
  logger : string;
  text : string;
}.

(** ** State *)

(** Process-wide state.  [USE_POSTGRES] is the build flag;
    [gDriversRegistered] is the static member of [Database]; [factories]
    lists the calls made to the [register_factory_*] entry points, oldest
    first; [hardware_concurrency] is what
    [std::thread::hardware_concurrency()] answers, 0 when the machine
    cannot tell; [backend] scripts the
    backing store: the n-th backend call (open, execute, prepare) succeeds
    on [None] and fails with [soci_error msg] on [Some msg], and every call
    after the end of the script succeeds. *)
Record Process := MkProcess {
  USE_POSTGRES : bool;
  gDriversRegistered : bool;
  factories : list string;
  hardware_concurrency : nat;
  backend : list (option string);
  logged : list LogLine;
  heap : gmap loc object;
}.

(** The members of [Database].  [DATABASE] is [mApp.getConfig().DATABASE]. *)
Record Database := MkDatabase {
  DATABASE : string;
  mSession : session;
  mPool : option loc;
  mStatements : gmap string loc;
}.

Record State := MkState {
  proc : Process;
  this : Database;
}.

(** Field updates. *)
Definition with_registered (b : bool) (fs : list string) (p : Process) : Process :=
  MkProcess (USE_POSTGRES p) b fs (hardware_concurrency p) (backend p)
            (logged p) (heap p).
Definition with_backend (bk : list (option string)) (p : Process) : Process :=
  MkProcess (USE_POSTGRES p) (gDriversRegistered p) (factories p)
            (hardware_concurrency p) bk (logged p) (heap p).
Definition with_logged (lg : list LogLine) (p : Process) : Process :=
  MkProcess (USE_POSTGRES p) (gDriversRegistered p) (factories p)
            (hardware_concurrency p) (backend p) lg (heap p).
Definition with_heap (h : gmap loc object) (p : Process) : Process :=
  MkProcess (USE_POSTGRES p) (gDriversRegistered p) (factories p)
            (hardware_concurrency p) (backend p) (logged p) h.

Definition with_mSession (x : session) (d : Database) : Database :=
  MkDatabase (DATABASE d) x (mPool d) (mStatements d).
Definition with_mPool (x : option loc) (d : Database) : Database :=
  MkDatabase (DATABASE d) (mSession d) x (mStatements d).
Definition with_mStatements (x : gmap string loc) (d : Database) : Database :=
  MkDatabase (DATABASE d) (mSession d) (mPool d) x.

Definition on_proc (f : Process → Process) (s : State) : State :=
  MkState (f (proc s)) (this s).
Definition on_this (f : Database → Database) (s : State) : State :=
  MkState (proc s) (f (this s)).

(** ** The monad of method bodies *)

Definition M (A : Type) : Type := State → Result A * State.

#[global] Instance M_ret : MRet M := λ A a s, (Ok a, s).
#[global] Instance M_bind : MBind M := λ A B f m s,
  match m s with
  | (Ok a, s') => f a s'
  | (Throw e, s') => (Throw e, s')
  | (Abort, s') => (Abort, s')
  end.

Definition throw {A} (e : exception) : M A := λ s, (Throw e, s).
Definition abort {A} : M A := λ s, (Abort, s).
Definition gets {A} (f : State → A) : M A := λ s, (Ok (f s), s).
Definition modify (f : State → State) : M unit := λ s, (Ok (), f s).

(** A local object with a destructor: when [m] is left by an exception,
    [cleanup] runs during unwinding. *)
Definition on_unwind {A} (m : M A) (cleanup : State → State) : M A := λ s,
  match m s with
  | (Throw e, s') => (Throw e, cleanup s')
  | r => r
  end.

(** [for (i = 0; i < n; ++i) body(i)], as a walk over the index list. *)
Fixpoint for_each {A} (l : list A) (body : A → M unit) : M unit :=
  match l with
  | [] => mret ()
  | x :: l' => body x ;; for_each l' body
  end.

(** ** Logging and the heap *)

Definition CLOG (lv : Level) (lg : string) (msg : string) : M unit :=
  modify (on_proc (λ p, with_logged (logged p ++ [Line lv lg msg]) p)).

Definition LOG (lv : Level) (msg : string) : M unit := CLOG lv "default" msg.

(** [make_shared<T>(...)] and [make_unique<T>(...)]: the object gets an
    address no live object has. *)
Definition new_object (o : object) : M loc := λ s,
  let l := fresh (dom (heap (proc s))) in
  (Ok l, on_proc (with_heap (<[l := o]> (heap (proc s)))) s).

(** The last owner of the object at [l] goes away. *)
Definition free (l : loc) (s : State) : State :=
  on_proc (λ p, with_heap (delete l (heap p)) p) s.

(** ** soci sessions *)

(** One call into the backing store, answered by the script. *)
Definition backend_call : M unit := λ s,
  match backend (proc s) with
  | [] => (Ok (), s)
  | None :: rest => (Ok (), on_proc (with_backend rest) s)
  | Some msg :: rest => (Throw (soci_error msg), on_proc (with_backend rest) s)
  end.

Definition read_session (r : session_ref) (s : State) : option session :=
  match r with
  | mSession_ref => Some (mSession (this s))
  | pool_entry pool i =>
      match heap (proc s) !! pool with
      | Some (ObjPool ss) => ss !! i
      | _ => None
      end
  end.

Definition pool_update (i : nat) (f : session → session) (o : object) : object :=
  match o with
  | ObjPool ss =>
      match ss !! i with
      | Some x => ObjPool (<[i := f x]> ss)
      | None => o
      end
  | _ => o
  end.

(** Writing through a session reference.  The references this file hands
    out are valid for as long as they are used. *)
Definition update_session (r : session_ref) (f : session → session) : M unit :=
  match r with
  | mSession_ref =>
      modify (on_this (λ d, with_mSession (f (mSession d)) d))
  | pool_entry pool i =>
      modify (on_proc (λ p, with_heap (alter (pool_update i f) pool (heap p)) p))
  end.

Definition append_capture (txt : string) (o : object) : object :=
  match o with
  | ObjSQLLogContext name sess cap => ObjSQLLogContext name sess (cap +:+ txt)
  | _ => o
  end.

Definition newline : string := String (Ascii.ascii_of_nat 10) "".

(** [session::log_query]: the query text and a newline go to the log
    stream, when one is installed. *)
Definition log_query (r : session_ref) (query : string) : M unit := λ s,
  match read_session r s with
  | Some {| logStream_ := Some c |} =>
      (Ok (), on_proc (λ p, with_heap
                 (alter (append_capture (query +:+ newline)) c (heap p)) p) s)
  | _ => (Ok (), s)
  end.

(** What the three operations leave of a session [x]. *)
Definition opened (c : string) (x : session) : session :=
  Session (Some c) (executed x) (logStream_ x).

Definition sent (sql : string) (x : session) : session :=
  Session (connectString x) (executed x ++ [sql]) (logStream_ x).

Definition streaming (st : option loc) (x : session) : session :=
  Session (connectString x) (executed x) st.

(** [sess.open(connectString)]: the session is open once the backing
    store has accepted the connection. *)
Definition session_open (r : session_ref) (c : string) : M unit :=
  backend_call ;;
  update_session r (opened c).

(** [sess << sql]: the statement is traced, then run by the backing
    store. *)
Definition session_exec (r : session_ref) (sql : string) : M unit :=
  log_query r sql ;;
  backend_call ;;
  update_session r (sent sql).

(** [sess.set_log_stream(s)] *)
Definition set_log_stream (r : session_ref) (st : option loc) : M unit :=
  update_session r (streaming st).

(** [connection_pool::at(pos)] *)
Definition pool_at (pool : loc) (pos : nat) : M session_ref := λ s,
  match heap (proc s) !! pool with
  | Some (ObjPool ss) =>
      if decide (pos < length ss) then (Ok (pool_entry pool pos), s)
      else (Throw (soci_error "Invalid pool position"), s)
  | _ => (Abort, s)
  end.

(** [statement::prepare(query)]: remember the text, trace it, compile it. *)
Definition statement_prepare (p : loc) (query : string) : M unit :=
  modify (on_proc (λ pr, with_heap (<[p := ObjStatement query]> (heap pr)) pr)) ;;
  log_query mSession_ref query ;;
  backend_call.

(** ** Database.cpp *)

Definition SET_SERIALIZABLE : string :=
  "SET SESSION CHARACTERISTICS AS TRANSACTION ISOLATION LEVEL " +:+
  "SERIALIZABLE".

Definition setSerializable (sess : session_ref) : M unit :=
  session_exec sess SET_SERIALIZABLE.

Definition registerDrivers (p : Process) : Process :=
  if negb (gDriversRegistered p) then
    let fs := factories p ++ ["sqlite3"] in
    let fs := if USE_POSTGRES p then fs ++ ["postgresql"] else fs in
    with_registered true fs p
  else p.

(** [std::string::find(needle) != npos] *)
Definition contains (needle hay : string) : bool :=
  match String.index 0 needle hay with
  | Some _ => true
  | None => false
  end.

Definition isSqlite (d : Database) : bool :=
  contains "sqlite3:" (DATABASE d).

Definition canUsePool (d : Database) : bool :=
  negb (String.eqb (DATABASE d) "sqlite3://:memory:").

(** The constructor body, run on the members as their default
    initialisers leave them. *)
Definition Database_ctor : M unit :=
  modify (on_proc registerDrivers) ;;
  c ← gets (λ s, DATABASE (this s));
  CLOG INFO "Database" ("Connecting to: " +:+ c) ;;
  session_open mSession_ref c ;;
  sq ← gets (λ s, isSqlite (this s));
  if sq : bool then session_exec mSession_ref "PRAGMA journal_mode = WAL"
  else setSerializable mSession_ref.

Definition members_init (uri : string) : Database :=
  {| DATABASE := uri; mSession := new_session; mPool := None; mStatements := ∅ |}.

(** [Database db(app)] with [app.getConfig().DATABASE = uri]: the object
    exists only if the constructor returns. *)
Definition Database_new (uri : string) (p : Process) : Result Database * Process :=
  match Database_ctor (MkState p (members_init uri)) with
  | (Ok _, s) => (Ok (this s), proc s)
  | (Throw e, s) => (Throw e, proc s)
  | (Abort, s) => (Abort, proc s)
  end.

(** [make_unique<soci::connection_pool>(n)]: the constructor of the pool
    refuses a pool without entries, before anything is allocated. *)
Definition new_connection_pool (n : nat) : M loc :=
  if decide (n = 0) then throw (soci_error "Invalid pool size")
  else new_object (ObjPool (replicate n new_session)).

(** The body of the loop of [getPool], for entry [i] of the pool at
    [pool]; [c] is the connect string. *)
Definition open_entry (pool : loc) (c : string) (i : nat) : M unit :=
  LOG DEBUG ("Opening pool entry " +:+ pretty i) ;;
  sess ← pool_at pool i;
  session_open sess c ;;
  sq ← gets (λ s, isSqlite (this s));
  if negb (sq : bool) then setSerializable sess else mret ().

Definition getPool : M loc :=
  p ← gets (λ s, mPool (this s));
  (if p : option loc is None then
     c ← gets (λ s, DATABASE (this s));
     ok ← gets (λ s, canUsePool (this s));
     (if negb (ok : bool) then
        throw (runtime_error ("Can't create connection pool to " +:+ c))
      else mret ()) ;;
     n ← gets (λ s, hardware_concurrency (proc s));
     LOG INFO ("Establishing " +:+ pretty n +:+
               "-entry connection pool to: " +:+ c) ;;
     pool ← new_connection_pool n;
     modify (on_this (with_mPool (Some pool))) ;;
     for_each (seq 0 n) (open_entry pool c)
   else mret ()) ;;
  p' ← gets (λ s, mPool (this s));
  match p' with
  | Some pool => mret pool
  | None => abort
  end.

(** *** getBalance *)

(** The ledger types [getBalance] reads.  Their declarations are XDR and
    frame classes outside this file; only the members the method touches
    are kept. *)
Definition uint256 := N.

Inductive CurrencyType := NATIVE | ISO4217.

Inductive Currency :=
  | Currency_native
  | Currency_iso4217 (currencyCode : string) (issuer : uint256).

Definition Currency_type (c : Currency) : CurrencyType :=
  match c with
  | Currency_native => NATIVE
  | Currency_iso4217 _ _ => ISO4217
  end.

Record AccountEntry := MkAccountEntry {
  account_id : uint256;
  account_balance : Z;
}.

Record TrustLineEntry := MkTrustLineEntry {
  trust_account_id : uint256;
  trust_currency : Currency;
  trust_balance : Z;
  authorized : bool;
}.

Record AccountFrame := MkAccountFrame { getAccount : AccountEntry }.
Record TrustFrame := MkTrustFrame { getTrustLine : TrustLineEntry }.

(** What a default-constructed frame holds is never read by [getBalance]. *)
Definition AccountFrame_new : AccountFrame :=
  MkAccountFrame (MkAccountEntry 0%N 0%Z).
Definition TrustFrame_new : TrustFrame :=
  MkTrustFrame (MkTrustLineEntry 0%N Currency_native 0%Z false).

Section Balance.
(** The collaborators of [getBalance]: the two loaders answer whether the
    record was found and fill the frame passed by reference; they run
    against the manager, so they are computations of [M]. *)
Variable loadAccount : uint256 → AccountFrame → M (bool * AccountFrame).
Variable loadTrustLine :
  uint256 → Currency → TrustFrame → M (bool * TrustFrame).
Variable TrustFrame_getBalance : TrustFrame → Z.

Definition getBalance (accountID : uint256) (currency : Currency) : M Z :=
  let amountFunded := 0%Z in
  match Currency_type currency with
  | NATIVE =>
      '(found, account) ← loadAccount accountID AccountFrame_new;
      if found : bool
      then mret (account_balance (getAccount account))
      else mret amountFunded
  | _ =>
      '(found, trustLine) ← loadTrustLine accountID currency TrustFrame_new;
      if found : bool
      then (if authorized (getTrustLine trustLine)
            then mret (TrustFrame_getBalance trustLine)
            else mret amountFunded)
      else mret amountFunded
  end.
End Balance.

(** *** SQLLogContext *)

(** [std::getline(rd, buf)] on the text left in the stream: nothing to read
    makes it fail; otherwise it takes the characters up to the first
    newline, drops that newline and leaves the rest in the stream. *)
Fixpoint take_line (rd : string) : string * string :=
  match rd with
  | EmptyString => (EmptyString, EmptyString)
  | String ch rest =>
      if Ascii.eqb ch (Ascii.ascii_of_nat 10) then (EmptyString, rest)
      else let '(buf, rd') := take_line rest in (String ch buf, rd')
  end.

Definition getline (rd : string) : option (string * string) :=
  match rd with
  | EmptyString => None
  | _ => Some (take_line rd)
  end.

(** [while (std::getline(rd, buf)) body(buf)].  Every round consumes at
    least one character, so [fuel] beyond the length of [rd] is never
    used up. *)
Fixpoint while_getline (fuel : nat) (rd : string) (body : string → M unit) : M unit :=
  match fuel with
  | 0 => abort
  | S fuel' =>
      match getline rd with
      | Some (buf, rd') => body buf ;; while_getline fuel' rd' body
      | None => mret ()
      end
  end.

Definition SEPARATOR : string := "[SQL] -----------------------".

(** [SQLLogContext(name, sess)], as [make_shared] runs it: the stream
    installed in the session is the [mCapture] member of the new object. *)
Definition SQLLogContext_ctor (name : string) (sess : session_ref) : M loc :=
  c ← new_object (ObjSQLLogContext name sess "");
  set_log_stream sess (Some c) ;;
  mret c.

(** [~SQLLogContext()] of the object at [c], then the release of its
    storage.  Destroying what is not a live context has no meaning. *)
Definition SQLLogContext_dtor (c : loc) : M unit :=
  o ← gets (λ s, heap (proc s) !! c);
  match o with
  | Some (ObjSQLLogContext mName mSess mCapture) =>
      set_log_stream mSess None ;;
      let captured := mCapture in
      CLOG INFO "Database" "" ;;
      CLOG INFO "Database" "" ;;
      CLOG INFO "Database" SEPARATOR ;;
      CLOG INFO "Database" ("[SQL] begin capture: " +:+ mName) ;;
      CLOG INFO "Database" SEPARATOR ;;
      while_getline (S (String.length captured)) captured (λ buf,
        CLOG INFO "Database" ("[SQL:" +:+ mName +:+ "] " +:+ buf)) ;;
      CLOG INFO "Database" SEPARATOR ;;
      CLOG INFO "Database" ("[SQL] end capture: " +:+ mName) ;;
      CLOG INFO "Database" SEPARATOR ;;
      CLOG INFO "Database" "" ;;
      CLOG INFO "Database" "" ;;
      modify (free c)
  | _ => abort
  end.

(** *** The statement cache *)

(** [StatementContext] holds the [shared_ptr] it was built from. *)
Record StatementContext := MkStatementContext { mStmt : loc }.

(** [std::map::insert]: an existing key keeps its value. *)
Definition map_insert (k : string) (v : loc) (m : gmap string loc) : gmap string loc :=
  match m !! k with
  | None => <[k := v]> m
  | Some _ => m
  end.

(** [statement::alloc()] only reserves backend handles. *)
Definition statement_alloc (p : loc) : M unit := mret ().

(** The local [shared_ptr p] is the only owner of a new statement until
    the cache takes a copy: an exception before that destroys the
    statement. *)
Definition getPreparedStatement (query : string) : M StatementContext :=
  i ← gets (λ s, mStatements (this s) !! query);
  p ← match i : option loc with
      | None =>
          p ← new_object (ObjStatement "");
          on_unwind
            (statement_alloc p ;;
             statement_prepare p query ;;
             modify (on_this (λ d,
               with_mStatements (map_insert query p (mStatements d)) d)))
            (free p) ;;
          mret p
      | Some p => mret p
      end;
  mret (MkStatementContext p).

Definition captureAndLogSQL (contextName : string) : M loc :=
  SQLLogContext_ctor contextName mSession_ref.

(** ** Runs of a process *)

(** A process as [main] finds it: nothing registered, nothing logged, an
    empty heap. *)
Definition Process_start (use_postgres : bool) (hw : nat)
    (script : list (option string)) : Process :=
  MkProcess use_postgres false [] hw script [] ∅.

(** The calls a client of the manager can make. *)
Inductive call :=
  | call_registerDrivers
  | call_getPool
  | call_getPreparedStatement (query : string)
  | call_captureAndLogSQL (contextName : string)
  | drop_SQLLogContext (c : loc).

Definition ignore {A} (m : M A) : M unit := m ;; mret ().

Definition run (c : call) : M unit :=
  match c with
  | call_registerDrivers => modify (on_proc registerDrivers)
  | call_getPool => ignore getPool
  | call_getPreparedStatement query => ignore (getPreparedStatement query)
  | call_captureAndLogSQL name => ignore (captureAndLogSQL name)
  | drop_SQLLogContext c => SQLLogContext_dtor c
  end.

(** One call that returns or throws takes the state from [s] to [s']. *)
Definition step (s s' : State) : Prop :=
  ∃ c r, run c s = (r, s') ∧ r ≠ Abort.

Inductive steps : State → State → Prop :=
  | steps_refl s : steps s s
  | steps_next s s' s'' : steps s s' → step s' s'' → steps s s''.

(** States a manager can be in: it was constructed in a fresh process and
    has served any number of calls since. *)
Definition reachable (s : State) : Prop :=
  ∃ use_postgres hw script uri d p,
    Database_new uri (Process_start use_postgres hw script) = (Ok d, p) ∧
    steps (MkState p d) s.

(** Running a list of calls from a state, whatever each one answers. *)
Fixpoint run_all (cs : list call) (s : State) : State :=
  match cs with
  | [] => s
  | c :: cs' => run_all cs' (run c s).2
  end.

(** ** Auxiliary notions for the proofs *)

(** The heap after a session whose log stream is [st] has traced [txt]. *)
Definition traced (st : option loc) (txt : string) (h : gmap loc object) : gmap loc object :=
  match st with
  | Some c => alter (append_capture (txt +:+ newline)) c h
  | None => h
  end.

(** The backing store answers every remaining call of the script. *)
Definition no_faults (p : Process) : Prop :=
  Forall (λ o, o = None) (backend p).

(** The state [s] with a new script, log, heap and manager: the shape of
    every state a method of the manager leaves behind. *)
Definition put (s : State) (bk : list (option string)) (lg : list LogLine)
    (h : gmap loc object) (d : Database) : State :=
  MkState (MkProcess (USE_POSTGRES (proc s)) (gDriversRegistered (proc s))
             (factories (proc s)) (hardware_concurrency (proc s)) bk lg h) d.


(** A pooled session once [getPool] has opened and tuned it. *)
Definition pooled (d : Database) (x : session) : session :=
  if isSqlite d then opened (DATABASE d) x
  else sent SET_SERIALIZABLE (opened (DATABASE d) x).

(** The successive values of [buf] in the loop of [~SQLLogContext]. *)
Fixpoint read_lines (fuel : nat) (rd : string) : list string :=
  match fuel with
  | 0 => []
  | S fuel' =>
      match getline rd with
      | Some (buf, rd') => buf :: read_lines fuel' rd'
      | None => []
      end
  end.

Definition captured_lines (captured : string) : list string :=
  read_lines (S (String.length captured)) captured.

(** The block [~SQLLogContext] logs for a capture called [name] and the
    lines it read back. *)
Definition capture_block (name : string) (lines : list string) : list LogLine :=
  Line INFO "Database" <$>
    ["" ; "" ; SEPARATOR ; "[SQL] begin capture: " +:+ name ; SEPARATOR] ++
    ((λ buf, "[SQL:" +:+ name +:+ "] " +:+ buf) <$> lines) ++
    [SEPARATOR ; "[SQL] end capture: " +:+ name ; SEPARATOR ; "" ; ""].

(** What a session writes to its log stream for a list of queries. *)
Definition trace_of (queries : list string) : string :=
  foldr (λ q acc, q +:+ newline +:+ acc) "" queries.

Fixpoint one_line (q : string) : bool :=
  match q with
  | EmptyString => true
  | String ch rest => negb (Ascii.eqb ch (Ascii.ascii_of_nat 10)) && one_line rest
  end.

(** The primary session as the constructor leaves it. *)
Definition primary_session (uri : string) : session :=
  Session (Some uri)
    [if contains "sqlite3:" uri then "PRAGMA journal_mode = WAL"
     else SET_SERIALIZABLE] None.

(** ** The invariant of the manager *)

(** Two views of a session that differ at most in the log stream. *)
Definition same_tuning (x y : session) : Prop :=
  connectString y = connectString x ∧ executed y = executed x.

(** What the heap owes the manager from one state to the next: a prepared
    statement stays where it is with its text, a pool stays where it is
    with its entries, each opened and tuned as it was. *)
Definition keeps (h h' : gmap loc object) : Prop :=
  ∀ l,
    match h !! l with
    | Some (ObjStatement q) => h' !! l = Some (ObjStatement q)
    | Some (ObjPool ss) =>
        ∃ ss', h' !! l = Some (ObjPool ss') ∧ Forall2 same_tuning ss ss'
    | _ => True
    end.

Record inv (s : State) : Prop := MkInv {
  inv_pool_allowed :
    canUsePool (this s) = false → mPool (this s) = None;
  inv_statements :
    ∀ q p, mStatements (this s) !! q = Some p →
           heap (proc s) !! p = Some (ObjStatement q);
  inv_pool :
    ∀ l, mPool (this s) = Some l →
         ∃ ss, heap (proc s) !! l = Some (ObjPool ss) ∧
               length ss = hardware_concurrency (proc s);
}.

(** What a later state keeps of an earlier one. *)
Record extends (s s' : State) : Prop := MkExtends {
  ext_DATABASE : DATABASE (this s') = DATABASE (this s);
  ext_hardware :
    hardware_concurrency (proc s') = hardware_concurrency (proc s);
  ext_primary : same_tuning (mSession (this s)) (mSession (this s'));
  ext_pool : ∀ l, mPool (this s) = Some l → mPool (this s') = Some l;
  ext_statements :
    ∀ q p, mStatements (this s) !! q = Some p →
           mStatements (this s') !! q = Some p;
  ext_heap : keeps (heap (proc s)) (heap (proc s'));
}.

(** ** Sample runs *)

(** The manager right after [Database db(app)] in a process [p]; when the
    constructor throws there is no manager, and the members are shown as
    their initialisers left them. *)
Definition booted (uri : string) (p : Process) : State :=
  match Database_new uri p with
  | (Ok d, p') => MkState p' d
  | (_, p') => MkState p' (members_init uri)
  end.

(** An in-memory sqlite node, a file-backed sqlite node and a postgres node
    on a four-way machine whose backing store never fails. *)
Definition memory_node : State :=
  booted "sqlite3://:memory:" (Process_start false 4 []).
Definition file_node : State :=
  booted "sqlite3://stellar.db" (Process_start false 4 []).
Definition postgres_node : State :=
  booted "postgresql://dbname=stellar" (Process_start true 4 []).

(** The postgres node once its pool is built, and later in its life. *)
Definition pooled_node : State := (getPool postgres_node).2.
Definition pooled_node_later : State :=
  run_all [call_getPreparedStatement "SELECT 1"; call_getPool] pooled_node.

(** The file node after one statement was prepared, and after a second. *)
Definition one_statement_node : State :=
  (getPreparedStatement "SELECT 1" file_node).2.
Definition two_statements_node : State :=
  run_all [call_getPreparedStatement "SELECT 2"] one_statement_node.

(** The file node facing a backing store that rejects the next call. *)
Definition failing_node : State :=
  on_proc (with_backend [Some "syntax error"; None]) file_node.

(** The file node with a capture attached, and the same after three
    statements were prepared under the capture. *)
Definition capturing_node : State :=
  run_all [call_captureAndLogSQL "first"] file_node.
Definition captured_node : State :=
  run_all [call_getPreparedStatement "A"; call_getPreparedStatement "B";
           call_getPreparedStatement "C"] capturing_node.

(** A postgres node whose backing store refuses the second pool entry. *)
Definition flaky_node : State :=
  booted "postgresql://dbname=stellar"
    (Process_start true 2 [None; None; None; None; Some "too many clients"]).

(** A postgres node on a machine that reports no hardware thread. *)
Definition threadless_node : State :=
  booted "postgresql://dbname=stellar" (Process_start true 0 []).

(** A ledger with one account, one authorized and one frozen trust line. *)
Definition sample_loadAccount (accountID : uint256) (frame : AccountFrame) :
    M (bool * AccountFrame) :=
  if N.eqb accountID 7%N
  then mret (true, MkAccountFrame (MkAccountEntry 7%N 1500%Z))
  else mret (false, frame).

Definition sample_currency : Currency := Currency_iso4217 "USD" 9%N.

Definition sample_loadTrustLine (accountID : uint256) (currency : Currency)
    (frame : TrustFrame) : M (bool * TrustFrame) :=
  if N.eqb accountID 7%N
  then mret (true, MkTrustFrame (MkTrustLineEntry 7%N currency 250%Z true))
  else if N.eqb accountID 8%N
  then mret (true, MkTrustFrame (MkTrustLineEntry 8%N currency 90%Z false))
  else mret (false, frame).

Definition sample_getBalance (frame : TrustFrame) : Z :=
  trust_balance (getTrustLine frame).

(** ** The rest of Database.cpp *)

(** *** initialize *)

(** The classes whose tables [initialize] drops, in the order it calls
    them. *)
Inductive schema_owner :=
  | AccountFrame_tables
  | OfferFrame_tables
  | TrustFrame_tables
  | OverlayManagerImpl_tables
  | PersistentState_tables
  | LedgerHeaderFrame_tables
  | TransactionFrame_tables.

Section Initialize.
(** The static [dropAll] of each class, handed the manager. *)
Variable dropAll : schema_owner → M unit.

Definition initialize : M unit :=
  dropAll AccountFrame_tables ;;
  dropAll OfferFrame_tables ;;
  dropAll TrustFrame_tables ;;
  dropAll OverlayManagerImpl_tables ;;
  dropAll PersistentState_tables ;;
  dropAll LedgerHeaderFrame_tables ;;
  dropAll TransactionFrame_tables.
End Initialize.

Definition initialize_order : list schema_owner :=
  [AccountFrame_tables; OfferFrame_tables; TrustFrame_tables;
   OverlayManagerImpl_tables; PersistentState_tables;
   LedgerHeaderFrame_tables; TransactionFrame_tables].

(** *** Timers *)

(** medida's registry, as far as the manager uses it: a metric is named by
    (domain, type, name); [NewTimer] answers the timer of that name and
    makes it first when there is none; the scope [TimeScope] opens holds on
    to its timer, and when the scope ends the timer is handed one sample.
    Durations are left out: a timer is the number of samples it got. *)
Record MetricName := Metric {
  metric_domain : string;
  metric_type : string;
  metric_name : string;
}.

#[global] Instance MetricName_eq_dec : EqDecision MetricName.
Proof. solve_decision. Defined.

#[global] Instance MetricName_countable : Countable MetricName.
Proof.
  refine (inj_countable'
            (λ n, (metric_domain n, metric_type n, metric_name n))
            (λ t, Metric t.1.1 t.1.2 t.2) _).
  by intros [].
Defined.

Record TimerContext := MkTimerContext { timer_ : MetricName }.

Definition NewTimer (name : MetricName) (registry : gmap MetricName nat) :
    MetricName * gmap MetricName nat :=
  match registry !! name with
  | Some _ => (name, registry)
  | None => (name, <[name := 0]> registry)
  end.

Definition TimeScope (timer : MetricName) : TimerContext :=
  MkTimerContext timer.

(** [~TimerContext()] *)
Definition TimerContext_dtor (scope : TimerContext)
    (registry : gmap MetricName nat) : gmap MetricName nat :=
  alter S (timer_ scope) registry.

(** The four getters: [mApp.getMetrics()] is the registry they work on. *)
Definition getInsertTimer (entityName : string)
    (registry : gmap MetricName nat) : TimerContext * gmap MetricName nat :=
  let '(timer, registry') :=
    NewTimer (Metric "database" "insert" entityName) registry in
  (TimeScope timer, registry').

Definition getSelectTimer (entityName : string)
    (registry : gmap MetricName nat) : TimerContext * gmap MetricName nat :=
  let '(timer, registry') :=
    NewTimer (Metric "database" "select" entityName) registry in
  (TimeScope timer, registry').

Definition getDeleteTimer (entityName : string)
    (registry : gmap MetricName nat) : TimerContext * gmap MetricName nat :=
  let '(timer, registry') :=
    NewTimer (Metric "database" "delete" entityName) registry in
  (TimeScope timer, registry').

Definition getUpdateTimer (entityName : string)
    (registry : gmap MetricName nat) : TimerContext * gmap MetricName nat :=
  let '(timer, registry') :=
    NewTimer (Metric "database" "update" entityName) registry in
  (TimeScope timer, registry').

(** A getter whose scope, once ended, has handed one sample to the timer
    named (database, [category], entity) and has touched no other
    metric. *)
Definition one_sample_under (category : string)
    (getter : string → gmap MetricName nat → TimerContext * gmap MetricName nat) :
    Prop :=
  ∀ entityName registry,
    let name := Metric "database" category entityName in
    let after :=
      TimerContext_dtor (getter entityName registry).1
                        (getter entityName registry).2 in
    after !! name = Some (S (default 0 (registry !! name))) ∧
    ∀ other, other ≠ name → after !! other = registry !! other.

(** ** Further notions for the proofs *)

(** Constructing one manager after the other in a process, whether or not
    each construction succeeds. *)
Definition construct_all (uris : list string) (p : Process) : Process :=
  foldl (λ q uri, (Database_new uri q).2) p uris.

(** A captured text with its last line closed. *)
Definition closed_text (captured : string) : string :=
  trace_of (captured_lines captured).

Fixpoint ends_with_newline (t : string) : bool :=
  match t with
  | EmptyString => false
  | String ch EmptyString => Ascii.eqb ch (Ascii.ascii_of_nat 10)
  | String _ rest => ends_with_newline rest
  end.

(** What a pool entry looks like when opening it was cut short. *)
Definition half_open (d : Database) (x x' : session) : Prop :=
  x' = x ∨ isSqlite d = false ∧ x' = opened (DATABASE d) x.

(** Heap bookkeeping of the manager: every capture context is attached to
    the primary session, a log stream that is installed points at a live
    context, pooled sessions have no log stream, and the heap holds no pool
    but the manager's and no statement but the cached ones. *)
Record tidy (s : State) : Prop := MkTidy {
  tidy_contexts :
    ∀ c name r cap,
      heap (proc s) !! c = Some (ObjSQLLogContext name r cap) →
      r = mSession_ref;
  tidy_stream :
    ∀ c, logStream_ (mSession (this s)) = Some c →
         ∃ name cap,
           heap (proc s) !! c = Some (ObjSQLLogContext name mSession_ref cap);
  tidy_pool :
    ∀ l ss, heap (proc s) !! l = Some (ObjPool ss) →
            mPool (this s) = Some l ∧ Forall (λ x, logStream_ x = None) ss;
  tidy_statements :
    ∀ p q, heap (proc s) !! p = Some (ObjStatement q) →
           mStatements (this s) !! q = Some p;
}.

(** A sample [dropAll]: one DROP statement on the primary session. *)
Definition sample_table (owner : schema_owner) : string :=
  match owner with
  | AccountFrame_tables => "Accounts"
  | OfferFrame_tables => "Offers"
  | TrustFrame_tables => "TrustLines"
  | OverlayManagerImpl_tables => "Peers"
  | PersistentState_tables => "StoreState"
  | LedgerHeaderFrame_tables => "LedgerHeaders"
  | TransactionFrame_tables => "TxHistory"
  end.

Definition sample_dropAll (owner : schema_owner) : M unit :=
  session_exec mSession_ref ("DROP TABLE IF EXISTS " +:+ sample_table owner).

(** The file node facing a backing store that refuses the third call. *)
Definition wearing_node : State :=
  on_proc (with_backend [None; None; Some "disk I/O error"]) file_node.

(** ** The backend a URI designates, in the words of the specification *)






(** ** The script of the backing store *)

(** The script answers the next [n] calls normally and [rest] is what is
    left of it afterwards; a script that has run out answers every call
    normally. *)
Definition answered (script : list (option string)) (n : nat)
    (rest : list (option string)) : Prop :=
  Forall (λ o, o = None) (take n script) ∧ rest = drop n script.

(** The script answers [k] calls normally and refuses the next one with
    [msg]; [rest] is what is left of it afterwards. *)
Definition refused_after (script : list (option string)) (k : nat)
    (msg : string) (rest : list (option string)) : Prop :=
  script = replicate k None ++ Some msg :: rest.

(** What a computation that makes at most [n] calls into the backing store,
    and stops at the first one refused, does to the script: it returns with
    [n] calls answered, or it throws the first refusal, which came within
    the [n] calls. *)
Definition script_after {A} (script : list (option string)) (n : nat)
    (r : Result A) (rest : list (option string)) : Prop :=
  match r with
  | Ok _ => answered script n rest
  | Throw (soci_error msg) => ∃ k, k < n ∧ refused_after script k msg rest
  | _ => False
  end.

(** The calls into the backing store that opening one pool entry makes. *)
Definition calls_per_entry (d : Database) : nat :=
  if isSqlite d then 1 else 2.

(** ** How far the tuning of a pool entry has got *)



(** * Lemmas *)

(** ** Running the monad *)

Ltac unfold_M :=
  unfold mbind, M_bind, mret, M_ret, gets, modify, throw, abort, on_unwind in *.

Ltac simp_state :=
  unfold on_proc, on_this, with_heap, with_backend, with_logged,
    with_registered, with_mSession, with_mPool, with_mStatements in *;
  simpl in *.

(** ** What each method does to the state *)

Lemma getPreparedStatement_hit s q p :
  mStatements (this s) !! q = Some p →
  getPreparedStatement q s = (Ok (MkStatementContext p), s).
Proof.
  intros H. unfold getPreparedStatement. unfold_M. simpl. by rewrite H.
Qed.

Lemma getPreparedStatement_miss s q :
  mStatements (this s) !! q = None →
  let p := fresh (dom (heap (proc s))) in
  let h := traced (logStream_ (mSession (this s))) q
             (<[p := ObjStatement q]> (heap (proc s))) in
  getPreparedStatement q s =
    match backend (proc s) with
    | Some msg :: rest =>
        (Throw (soci_error msg),
         MkState (with_backend rest (with_heap (delete p h) (proc s))) (this s))
    | bk =>
        (Ok (MkStatementContext p),
         MkState (with_backend (tail bk) (with_heap h (proc s)))
                 (with_mStatements (<[q := p]> (mStatements (this s))) (this s)))
    end.
Proof.
  intros H p h. subst h.
  destruct s as [[pg reg fs hw bk lg hp] [uri ms mp st]]. simpl in *.
  unfold getPreparedStatement, statement_alloc, statement_prepare, log_query, backend_call, new_object, map_insert, free.
  unfold_M. simpl. rewrite H. simpl. fold p.
  destruct ms as [cs ex [c|]], bk as [|[msg|] rest]; simp_state;
    rewrite ?H; simp_state; rewrite insert_insert_eq; done.
Qed.
Lemma put_id s : put s (backend (proc s)) (logged (proc s)) (heap (proc s)) (this s) = s.
Proof. by destruct s as [[] []]. Qed.

Lemma alter_pool_update l i f (hp : gmap loc object) ss x :
  hp !! l = Some (ObjPool ss) → ss !! i = Some x →
  alter (pool_update i f) l hp = <[l := ObjPool (<[i := f x]> ss)]> hp.
Proof.
  intros Hl Hi. apply map_eq. intros k.
  destruct (decide (k = l)) as [->|Hne].
  - rewrite lookup_alter_eq, lookup_insert_eq, Hl. simpl. by rewrite Hi.
  - by rewrite lookup_alter_ne, lookup_insert_ne.
Qed.

Lemma backend_call_spec s :
  ∃ r bk,
    backend_call s = (r, put s bk (logged (proc s)) (heap (proc s)) (this s)) ∧
    (r = Ok () ∨ ∃ msg, r = Throw (soci_error msg)) ∧
    (no_faults (proc s) → r = Ok () ∧ Forall (λ o, o = None) bk).
Proof.
  destruct s as [[pg reg fs hw bk lg hp] d]. unfold backend_call, no_faults, put. simp_state.
  destruct bk as [|[msg|] rest]; eexists _, _; (split; [reflexivity|]); split; eauto.
  - intros H. by inversion H.
  - intros H. inversion H; subst. done.
Qed.

Lemma session_open_entry l i c s ss x :
  heap (proc s) !! l = Some (ObjPool ss) → ss !! i = Some x →
  ∃ r bk x',
    session_open (pool_entry l i) c s =
      (r, put s bk (logged (proc s))
                (<[l := ObjPool (<[i := x']> ss)]> (heap (proc s))) (this s)) ∧
    (r = Ok () ∧ x' = opened c x ∨ (∃ msg, r = Throw (soci_error msg)) ∧ x' = x) ∧
    (no_faults (proc s) → r = Ok () ∧ Forall (λ o, o = None) bk).
Proof.
  intros Hl Hi. unfold session_open.
  destruct (backend_call_spec s) as (r & bk & E & Hr & Hnf).
  unfold mbind, M_bind. rewrite E.
  destruct Hr as [->|[msg ->]].
  - exists (Ok ()), bk, (opened c x). split; [|by eauto].
    unfold update_session, modify, put. simp_state.
    by erewrite alter_pool_update.
  - exists (Throw (soci_error msg)), bk, x. split; [|split; [by eauto|]].
    + by rewrite list_insert_id, insert_id.
    + intros H. by destruct (Hnf H).
Qed.

Lemma session_exec_entry l i sql s ss x :
  heap (proc s) !! l = Some (ObjPool ss) → ss !! i = Some x →
  logStream_ x = None →
  ∃ r bk x',
    session_exec (pool_entry l i) sql s =
      (r, put s bk (logged (proc s))
                (<[l := ObjPool (<[i := x']> ss)]> (heap (proc s))) (this s)) ∧
    (r = Ok () ∧ x' = sent sql x ∨ (∃ msg, r = Throw (soci_error msg)) ∧ x' = x) ∧
    (no_faults (proc s) → r = Ok () ∧ Forall (λ o, o = None) bk).
Proof.
  intros Hl Hi Hx. unfold session_exec.
  assert (log_query (pool_entry l i) sql s = (Ok (), s)) as E0.
  { unfold log_query, read_session. rewrite Hl, Hi. destruct x; simpl in *. by subst. }
  destruct (backend_call_spec s) as (r & bk & E & Hr & Hnf).
  unfold mbind, M_bind. rewrite E0, E.
  destruct Hr as [->|[msg ->]].
  - exists (Ok ()), bk, (sent sql x). split; [|by eauto].
    unfold update_session, modify, put. simp_state.
    by erewrite alter_pool_update.
  - exists (Throw (soci_error msg)), bk, x. split; [|split; [by eauto|]].
    + by rewrite list_insert_id, insert_id.
    + intros H. by destruct (Hnf H).
Qed.
Lemma open_entry_spec l i s ss x :
  heap (proc s) !! l = Some (ObjPool ss) → ss !! i = Some x →
  logStream_ x = None →
  ∃ r bk lg x',
    open_entry l (DATABASE (this s)) i s =
      (r, put s bk lg (<[l := ObjPool (<[i := x']> ss)]> (heap (proc s))) (this s)) ∧
    (r = Ok () ∧ x' = pooled (this s) x ∨ ∃ msg, r = Throw (soci_error msg)) ∧
    (no_faults (proc s) → r = Ok () ∧ Forall (λ o, o = None) bk).
Proof.
  intros Hl Hi Hx.
  assert (Hlen : i < length ss) by (eapply lookup_lt_Some; eauto).
  unfold open_entry, LOG, CLOG, pool_at, setSerializable.
  unfold mbind at 1 2, M_bind at 1 2, modify at 1. simp_state. rewrite Hl.
  destruct (decide (i < length ss)) as [_|]; [|lia].
  set (s1 := MkState _ _).
  destruct (session_open_entry l i (DATABASE (this s)) s1 ss x Hl Hi)
    as (r & bk & x' & E & Hr & Hnf).
  unfold mbind at 1, M_bind at 1. rewrite E. clear E.
  destruct Hr as [[-> ->]|[[msg ->] ->]].
  2:{ eexists _, _, _, _. split; [reflexivity|]. split; [eauto|].
      intros H. by destruct (Hnf H). }
  unfold mbind, M_bind, gets. simpl. unfold pooled.
  destruct (isSqlite (this s)) eqn:Esq; simpl.
  { eexists _, _, _, _. split; [reflexivity|]. split; [eauto|]. done. }
  set (s2 := put _ _ _ _ _).
  destruct (session_exec_entry l i SET_SERIALIZABLE s2 (<[i := opened (DATABASE (this s)) x]> ss)
              (opened (DATABASE (this s)) x)) as (r & bk' & x' & E & Hr & Hnf');
    [by (subst s2; simpl; rewrite lookup_insert_eq)
    |by apply list_lookup_insert_eq | done |].
  rewrite E. subst s2 s1. unfold put; simpl.
  rewrite insert_insert_eq, list_insert_insert_eq.
  eexists _, _, _, _. split; [reflexivity|]. split.
  - destruct Hr as [[-> ->]|[[msg ->] ->]]; eauto.
  - intros H. destruct (Hnf H) as [_ H']. by apply Hnf'.
Qed.

Lemma pool_loop l : ∀ rest done s,
  heap (proc s) !! l = Some (ObjPool (done ++ rest)) →
  Forall (λ x, logStream_ x = None) rest →
  ∃ r bk lg ss,
    for_each (seq (length done) (length rest)) (open_entry l (DATABASE (this s))) s =
      (r, put s bk lg (<[l := ObjPool ss]> (heap (proc s))) (this s)) ∧
    length ss = length (done ++ rest) ∧
    (r = Ok () ∧ ss = done ++ (pooled (this s) <$> rest)
     ∨ ∃ msg, r = Throw (soci_error msg)) ∧
    (no_faults (proc s) → r = Ok ()).
Proof.
  induction rest as [|x rest IH]; intros done s Hl Hrest.
  - simpl. exists (Ok ()), (backend (proc s)), (logged (proc s)), (done ++ []).
    split; [|by eauto]. rewrite insert_id by done. by rewrite put_id.
  - inversion Hrest as [|? ? Hx Hrest']; subst.
    cbn [length seq for_each].
    destruct (open_entry_spec l (length done) s (done ++ x :: rest) x Hl)
      as (r & bk & lg & x' & E & Hr & Hnf); [by apply list_lookup_middle | done |].
    unfold mbind, M_bind. rewrite E. clear E.
    assert (<[length done := x']> (done ++ x :: rest) = (done ++ [x']) ++ rest) as Eins.
    { rewrite insert_app_r_alt by lia. rewrite Nat.sub_diag. simpl. by rewrite <- app_assoc. }
    rewrite Eins.
    destruct Hr as [[-> ->]|[msg ->]].
    2:{ eexists _, _, _, _. split; [reflexivity|].
        split; [rewrite !length_app; simpl; lia|]. split; [eauto|].
        intros H. by destruct (Hnf H). }
    set (s1 := put _ _ _ _ _).
    destruct (IH (done ++ [pooled (this s) x]) s1) as (r & bk' & lg' & ss & E & Hlen & Hr & Hnf');
      [by (subst s1; simpl; rewrite lookup_insert_eq) | done |].
    replace (length (done ++ [pooled (this s) x])) with (S (length done)) in E
      by (rewrite length_app; simpl; lia).
    change (DATABASE (this s1)) with (DATABASE (this s)) in E.
    rewrite E. subst s1. unfold put. simpl. rewrite insert_insert_eq.
    eexists _, _, _, _. split; [reflexivity|]. split.
    { rewrite Hlen, !length_app. simpl. lia. }
    split.
    + destruct Hr as [[-> ->]|[msg ->]]; eauto.
      left. split; [done|]. simpl. by rewrite <- app_assoc.
    + intros H. apply Hnf'. by destruct (Hnf H).
Qed.
Lemma getPool_built s l : mPool (this s) = Some l → getPool s = (Ok l, s).
Proof.
  intros H. unfold getPool. unfold_M. simpl. rewrite H. simpl. by rewrite H.
Qed.

Lemma getPool_refused s :
  mPool (this s) = None → canUsePool (this s) = false →
  getPool s =
    (Throw (runtime_error ("Can't create connection pool to " +:+ DATABASE (this s))), s).
Proof.
  intros H1 H2. unfold getPool. unfold_M. simpl. rewrite H1. simpl. by rewrite H2.
Qed.

(** The line [getPool] logs before it builds the pool. *)
Lemma getPool_empty s :
  mPool (this s) = None → canUsePool (this s) = true →
  hardware_concurrency (proc s) = 0 →
  getPool s =
    (Throw (soci_error "Invalid pool size"),
     put s (backend (proc s))
       (logged (proc s) ++
        [Line INFO "default"
           ("Establishing " +:+ pretty 0 +:+ "-entry connection pool to: " +:+
            DATABASE (this s))])
       (heap (proc s)) (this s)).
Proof.
  intros H1 H2 H0. unfold getPool, LOG, CLOG, new_connection_pool.
  unfold_M. simpl. rewrite H1. simpl. rewrite H2. simpl. rewrite H0. simpl.
  by destruct s as [[] []].
Qed.

Lemma getPool_build s :
  mPool (this s) = None → canUsePool (this s) = true →
  hardware_concurrency (proc s) ≠ 0 →
  let l := fresh (dom (heap (proc s))) in
  ∃ r bk lg ss,
    getPool s = (r, put s bk lg (<[l := ObjPool ss]> (heap (proc s)))
                      (with_mPool (Some l) (this s))) ∧
    length ss = hardware_concurrency (proc s) ∧
    (r = Ok l ∧
     ss = replicate (hardware_concurrency (proc s)) (pooled (this s) new_session)
     ∨ ∃ msg, r = Throw (soci_error msg)) ∧
    (no_faults (proc s) → r = Ok l).
Proof.
  intros H1 H2 H0 l. unfold getPool, LOG, CLOG, new_connection_pool, new_object.
  unfold mbind at 1 2, M_bind at 1 2, gets at 1. simpl. rewrite H1.
  unfold mbind at 1 2 3 4 5 6 7, M_bind at 1 2 3 4 5 6 7, gets at 1 2 3, modify at 1 2.
  simpl. rewrite H2. simpl.
  destruct (decide (hardware_concurrency (proc s) = 0)) as [|_]; [done|].
  unfold mret at 1, M_ret at 1. simp_state. fold l.
  set (n := hardware_concurrency (proc s)).
  set (s1 := MkState _ _).
  destruct (pool_loop l (replicate n new_session) [] s1) as (r & bk & lg & ss & E & Hlen & Hr & Hnf).
  { subst s1. simpl. by rewrite lookup_insert_eq. }
  { by apply Forall_replicate. }
  simpl in E, Hlen. rewrite length_replicate in E. rewrite ?length_replicate in Hlen.
  rewrite E. clear E. subst s1. unfold put; simp_state. rewrite insert_insert_eq.
  destruct Hr as [[-> ->]|[msg ->]]; simpl.
  - eexists _, _, _, _. split; [reflexivity|]. split; [done|].
    split; [|done]. left. split; [done|]. by rewrite fmap_replicate.
  - eexists _, _, _, _. split; [reflexivity|]. split; [done|]. split; [eauto|].
    intros H. by specialize (Hnf H).
Qed.

(** ** Reading the capture back *)

Lemma take_line_length rd : String.length (take_line rd).2 ≤ String.length rd.
Proof.
  induction rd as [|ch rest IH]; simpl; [done|].
  destruct (Ascii.eqb ch _); simpl; [lia|].
  destruct (take_line rest) as [buf rd']. simpl in *. lia.
Qed.

Lemma getline_shrinks rd buf rd' :
  getline rd = Some (buf, rd') → String.length rd' < String.length rd.
Proof.
  destruct rd as [|ch rest]; [done|]. unfold getline. intros [= E].
  simpl in E. destruct (Ascii.eqb ch _).
  - inversion E; subst. simpl. lia.
  - pose proof (take_line_length rest) as Hlen.
    destruct (take_line rest) as [b r]. inversion E; subst. simpl in *. lia.
Qed.

Lemma while_getline_logs (g : string → string) fuel : ∀ rd s,
  String.length rd < fuel →
  while_getline fuel rd (λ buf, CLOG INFO "Database" (g buf)) s =
    (Ok (), put s (backend (proc s))
              (logged (proc s) ++ (Line INFO "Database" ∘ g <$> read_lines fuel rd))
              (heap (proc s)) (this s)).
Proof.
  induction fuel as [|fuel IH]; intros rd s Hlen; [lia|].
  simpl. destruct (getline rd) as [[buf rd']|] eqn:E.
  - apply getline_shrinks in E.
    unfold mbind, M_bind, CLOG, modify. rewrite IH by lia.
    destruct s as [[] []]. unfold put. simp_state. by rewrite <- app_assoc.
  - unfold mret, M_ret. simpl. rewrite app_nil_r. by rewrite put_id.
Qed.

Lemma update_session_run r f s :
  ∃ h d, update_session r f s = (Ok (), put s (backend (proc s)) (logged (proc s)) h d) ∧
    match r with
    | mSession_ref => h = heap (proc s) ∧ d = with_mSession (f (mSession (this s))) (this s)
    | pool_entry l i => h = alter (pool_update i f) l (heap (proc s)) ∧ d = this s
    end.
Proof.
  destruct s as [[] []]. destruct r; eexists _, _; (split; [reflexivity|]); done.
Qed.

Lemma CLOG_put s bk lg h d lv lgr msg :
  CLOG lv lgr msg (put s bk lg h d) = (Ok (), put s bk (lg ++ [Line lv lgr msg]) h d).
Proof. reflexivity. Qed.

Lemma while_getline_put (g : string → string) rd s bk lg h d :
  while_getline (S (String.length rd)) rd (λ buf, CLOG INFO "Database" (g buf))
      (put s bk lg h d) =
    (Ok (), put s bk (lg ++ (Line INFO "Database" ∘ g <$> captured_lines rd)) h d).
Proof. rewrite while_getline_logs by lia. reflexivity. Qed.

Lemma bind_Ok {A B} (m : M A) (f : A → M B) s a s' :
  m s = (Ok a, s') → (m ≫= f) s = f a s'.
Proof. intros E. unfold mbind, M_bind. by rewrite E. Qed.

Lemma bind_Throw {A B} (m : M A) (f : A → M B) s e s' :
  m s = (Throw e, s') → (m ≫= f) s = (Throw e, s').
Proof. intros E. unfold mbind, M_bind. by rewrite E. Qed.

Lemma SQLLogContext_dtor_run c s name r cap :
  heap (proc s) !! c = Some (ObjSQLLogContext name r cap) →
  ∃ h d,
    SQLLogContext_dtor c s =
      (Ok (), put s (backend (proc s))
                (logged (proc s) ++ capture_block name (captured_lines cap))
                (delete c h) d) ∧
    match r with
    | mSession_ref =>
        h = heap (proc s) ∧
        d = with_mSession (streaming None (mSession (this s))) (this s)
    | pool_entry l i =>
        h = alter (pool_update i (streaming None)) l
              (heap (proc s)) ∧ d = this s
    end.
Proof.
  intros Hc. unfold SQLLogContext_dtor, set_log_stream.
  unfold mbind at 1, M_bind at 1, gets. rewrite Hc.
  destruct (update_session_run r (streaming None) s)
    as (h & d & E & Hhd).
  exists h, d. split; [|done].
  rewrite (bind_Ok _ _ _ _ _ E). clear E.
  do 5 (erewrite bind_Ok by apply CLOG_put).
  erewrite bind_Ok by apply (while_getline_put (λ buf, "[SQL:" +:+ name +:+ "] " +:+ buf)).
  do 5 (erewrite bind_Ok by apply CLOG_put).
  unfold modify, free, capture_block.
  rewrite !fmap_app, <- !app_assoc, list_fmap_compose.
  reflexivity.
Qed.

Lemma captureAndLogSQL_run name s :
  let c := fresh (dom (heap (proc s))) in
  captureAndLogSQL name s =
    (Ok c, put s (backend (proc s)) (logged (proc s))
             (<[c := ObjSQLLogContext name mSession_ref ""]> (heap (proc s)))
             (with_mSession (streaming (Some c) (mSession (this s))) (this s))).
Proof. by destruct s as [[] []]. Qed.
(** ** A traced list of queries reads back as itself *)

Lemma take_line_trace q rest :
  one_line q = true → take_line (q +:+ newline +:+ rest) = (q, rest).
Proof.
  induction q as [|ch q IH]; simpl; [done|].
  intros [Hch Hq]%andb_true_iff. apply negb_true_iff in Hch. rewrite Hch.
  by rewrite (IH Hq).
Qed.

Lemma getline_trace q rest :
  one_line q = true → getline (q +:+ newline +:+ rest) = Some (q, rest).
Proof.
  intros Hq. unfold getline. rewrite <- (take_line_trace q rest Hq).
  by destruct q.
Qed.

Lemma length_append_string (a b : string) :
  String.length (a +:+ b) = String.length a + String.length b.
Proof. induction a as [|ch a IH]; simpl; [done|]. by rewrite IH. Qed.

Lemma read_lines_trace queries : ∀ fuel,
  Forall (λ q, one_line q = true) queries →
  String.length (trace_of queries) < fuel →
  read_lines fuel (trace_of queries) = queries.
Proof.
  induction queries as [|q qs IH]; intros fuel Hqs Hlen.
  - by destruct fuel.
  - inversion Hqs; subst. destruct fuel as [|fuel]; [lia|].
    simpl in *. rewrite getline_trace by done. f_equal. apply IH; [done|].
    rewrite !length_append_string in Hlen. simpl in Hlen. lia.
Qed.

Lemma captured_lines_trace queries :
  Forall (λ q, one_line q = true) queries →
  captured_lines (trace_of queries) = queries.
Proof. intros H. apply read_lines_trace; [done|lia]. Qed.

(** ** The constructor *)

Lemma with_mSession_id d : with_mSession (mSession d) d = d.
Proof. by destruct d. Qed.

Lemma session_open_primary c s bk lg h d :
  ∃ r bk' x',
    session_open mSession_ref c (put s bk lg h d) =
      (r, put s bk' lg h (with_mSession x' d)) ∧
    (r = Ok () ∧ x' = opened c (mSession d)
     ∨ (∃ msg, r = Throw (soci_error msg)) ∧ x' = mSession d) ∧
    (Forall (λ o, o = None) bk → r = Ok () ∧ Forall (λ o, o = None) bk').
Proof.
  unfold session_open.
  destruct (backend_call_spec (put s bk lg h d)) as (r & bk' & E & Hr & Hnf).
  unfold mbind, M_bind. rewrite E. clear E.
  destruct Hr as [->|[msg ->]].
  - exists (Ok ()), bk', (opened c (mSession d)). split; [done|]. split; [by left|done].
  - exists (Throw (soci_error msg)), bk', (mSession d).
    rewrite with_mSession_id. split; [done|]. split; [by eauto|].
    intros H. by destruct (Hnf H).
Qed.

Lemma session_exec_primary sql s bk lg h d :
  logStream_ (mSession d) = None →
  ∃ r bk' x',
    session_exec mSession_ref sql (put s bk lg h d) =
      (r, put s bk' lg h (with_mSession x' d)) ∧
    (r = Ok () ∧ x' = sent sql (mSession d)
     ∨ (∃ msg, r = Throw (soci_error msg)) ∧ x' = mSession d) ∧
    (Forall (λ o, o = None) bk → r = Ok () ∧ Forall (λ o, o = None) bk').
Proof.
  intros Hx. unfold session_exec.
  assert (log_query mSession_ref sql (put s bk lg h d) = (Ok (), put s bk lg h d)) as E0.
  { unfold log_query, read_session. simpl. destruct (mSession d); simpl in *. by subst. }
  destruct (backend_call_spec (put s bk lg h d)) as (r & bk' & E & Hr & Hnf).
  unfold mbind, M_bind. rewrite E0, E. clear E E0.
  destruct Hr as [->|[msg ->]].
  - exists (Ok ()), bk', (sent sql (mSession d)). split; [done|]. split; [by left|done].
  - exists (Throw (soci_error msg)), bk', (mSession d).
    rewrite with_mSession_id. split; [done|]. split; [by eauto|].
    intros H. by destruct (Hnf H).
Qed.

Lemma Database_ctor_spec uri p :
  ∃ r bk lg x,
    Database_ctor (MkState p (members_init uri)) =
      (r, put (MkState (registerDrivers p) (members_init uri)) bk lg (heap p)
              (with_mSession x (members_init uri))) ∧
    (r = Ok () ∧ x = primary_session uri ∨ ∃ msg, r = Throw (soci_error msg)) ∧
    (no_faults p → r = Ok ()).
Proof.
  unfold Database_ctor.
  assert (Hreg : ∀ q, backend (registerDrivers q) = backend q ∧
                      logged (registerDrivers q) = logged q ∧
                      heap (registerDrivers q) = heap q).
  { intros q. unfold registerDrivers. by destruct (negb _). }
  destruct (Hreg p) as (Hbk & Hlg & Hhp).
  erewrite bind_Ok by reflexivity.
  erewrite bind_Ok by reflexivity.
  rewrite <- (put_id (on_proc registerDrivers _)).
  erewrite bind_Ok by apply CLOG_put.
  simpl proc. simpl this. rewrite Hbk, Hlg, Hhp.
  set (s0 := MkState (registerDrivers p) (members_init uri)).
  destruct (session_open_primary uri s0 (backend p)
              (logged p ++ [Line INFO "Database" ("Connecting to: " +:+ uri)])
              (heap p) (members_init uri)) as (r & bk & x & E & Hr & Hnf).
  destruct Hr as [[-> ->]|[[msg ->] ->]].
  2:{ erewrite bind_Throw by exact E.
      eexists _, _, _, _. split; [reflexivity|]. split; [eauto|].
      intros H. by destruct (Hnf H). }
  erewrite bind_Ok by exact E. clear E.
  erewrite bind_Ok by reflexivity.
  unfold setSerializable, primary_session.
  change (isSqlite _) with (contains "sqlite3:" uri).
  destruct (contains "sqlite3:" uri);
    (edestruct session_exec_primary as (r & bk' & x' & E & Hr & Hnf'); [|
     eexists _, _, _, _; split; [exact E|]; split;
       [destruct Hr as [[-> ->]|[[msg ->] ->]]; eauto
       |intros H; apply Hnf'; by destruct (Hnf H)]]); done.
Qed.

Lemma Database_new_spec uri p :
  ∃ r p',
    Database_new uri p = (r, p') ∧
    (r = Ok (MkDatabase uri (primary_session uri) None ∅)
     ∨ ∃ msg, r = Throw (soci_error msg)) ∧
    heap p' = heap p ∧
    hardware_concurrency p' = hardware_concurrency p ∧
    (no_faults p → r = Ok (MkDatabase uri (primary_session uri) None ∅)).
Proof.
  destruct (Database_ctor_spec uri p) as (r & bk & lg & x & E & Hr & Hnf).
  unfold Database_new. rewrite E. clear E.
  assert (hardware_concurrency (registerDrivers p) = hardware_concurrency p) as Hhw.
  { unfold registerDrivers. by destruct (negb _). }
  destruct Hr as [[-> ->]|[msg ->]].
  - eexists _, _. split; [reflexivity|]. simpl. eauto.
  - eexists _, _. split; [reflexivity|]. simpl. split; [eauto|].
    split; [done|]. split; [done|]. intros H. by specialize (Hnf H).
Qed.

Lemma same_tuning_refl x : same_tuning x x.
Proof. by split. Qed.

Lemma same_tuning_trans x y z : same_tuning x y → same_tuning y z → same_tuning x z.
Proof. intros [A1 A2] [B1 B2]. split; congruence. Qed.

Lemma Forall2_same_tuning_refl ss : Forall2 same_tuning ss ss.
Proof. induction ss; constructor; [apply same_tuning_refl|done]. Qed.

Lemma Forall2_same_tuning_trans ss1 : ∀ ss2 ss3,
  Forall2 same_tuning ss1 ss2 → Forall2 same_tuning ss2 ss3 →
  Forall2 same_tuning ss1 ss3.
Proof.
  induction ss1 as [|x ss1 IH]; intros ss2 ss3 H12 H23.
  - inversion H12; subst. by inversion H23; subst.
  - inversion H12 as [|? y ? ss2' Hxy H12']; subst.
    inversion H23 as [|? z ? ss3' Hyz H23']; subst.
    constructor; [by eapply same_tuning_trans|by eapply IH].
Qed.

Lemma Forall2_same_tuning_insert ss : ∀ i x y,
  ss !! i = Some x → same_tuning x y →
  Forall2 same_tuning ss (<[i := y]> ss).
Proof.
  induction ss as [|z ss IH]; intros i x y Hi Hxy; [done|].
  destruct i as [|i]; simpl in *.
  - injection Hi as ->. constructor; [done|apply Forall2_same_tuning_refl].
  - constructor; [apply same_tuning_refl|by eapply IH].
Qed.

(** ** The invariant is kept by every call *)

Lemma keeps_refl h : keeps h h.
Proof.
  intros l. destruct (h !! l) as [[q|ss|]|]; [done| |done..].
  exists ss. split; [done|apply Forall2_same_tuning_refl].
Qed.

Lemma keeps_trans h1 h2 h3 : keeps h1 h2 → keeps h2 h3 → keeps h1 h3.
Proof.
  intros H12 H23 l. specialize (H12 l). specialize (H23 l).
  destruct (h1 !! l) as [[q|ss|]|]; [| |done..].
  - by rewrite H12 in H23.
  - destruct H12 as (ss' & E & Hss). rewrite E in H23.
    destruct H23 as (ss'' & E' & Hss'). exists ss''.
    split; [done|by eapply Forall2_same_tuning_trans].
Qed.

Lemma keeps_insert_fresh h l o : h !! l = None → keeps h (<[l := o]> h).
Proof.
  intros Hl k. destruct (decide (k = l)) as [->|Hne]; [by rewrite Hl|].
  rewrite lookup_insert_ne by done. apply keeps_refl.
Qed.

Lemma keeps_alter h f l :
  (∀ q, f (ObjStatement q) = ObjStatement q) →
  (∀ ss, ∃ ss', f (ObjPool ss) = ObjPool ss' ∧ Forall2 same_tuning ss ss') →
  keeps h (alter f l h).
Proof.
  intros Hst Hpool k. destruct (decide (k = l)) as [->|Hne].
  - rewrite lookup_alter_eq. destruct (h !! l) as [[q|ss|]|]; simpl; [| |done..].
    + by rewrite Hst.
    + destruct (Hpool ss) as (ss' & -> & Hss). eauto.
  - rewrite lookup_alter_ne by done. apply keeps_refl.
Qed.

Lemma keeps_append_capture h txt c : keeps h (alter (append_capture txt) c h).
Proof.
  apply keeps_alter; [done|]. intros ss. exists ss.
  split; [done|apply Forall2_same_tuning_refl].
Qed.

Lemma keeps_pool_update h i f l :
  (∀ x, same_tuning x (f x)) → keeps h (alter (pool_update i f) l h).
Proof.
  intros Hf. apply keeps_alter; [done|]. intros ss. simpl.
  destruct (ss !! i) as [x|] eqn:Hi; eexists; (split; [reflexivity|]).
  - by eapply Forall2_same_tuning_insert.
  - apply Forall2_same_tuning_refl.
Qed.

Lemma keeps_traced h st txt : keeps h (traced st txt h).
Proof. destruct st; [apply keeps_append_capture|apply keeps_refl]. Qed.

Lemma keeps_delete h h' l :
  keeps h h' →
  match h !! l with Some (ObjStatement _) | Some (ObjPool _) => False | _ => True end →
  keeps h (delete l h').
Proof.
  intros Hk Hl k. specialize (Hk k). destruct (decide (k = l)) as [->|Hne].
  - destruct (h !! l) as [[]|]; done.
  - rewrite lookup_delete_ne by done. done.
Qed.

Lemma fresh_loc_free (h : gmap loc object) : h !! fresh (dom h) = None.
Proof. apply not_elem_of_dom. apply is_fresh. Qed.

(** A state that keeps the heap objects and the members the invariant
    speaks about satisfies it too. *)
Lemma inv_keeps s bk lg h d :
  inv s → keeps (heap (proc s)) h →
  DATABASE d = DATABASE (this s) → mPool d = mPool (this s) →
  mStatements d = mStatements (this s) →
  same_tuning (mSession (this s)) (mSession d) →
  inv (put s bk lg h d) ∧ extends s (put s bk lg h d).
Proof.
  intros [I1 I2 I3] Hk HD HP HS HM. split; split; simpl.
  - unfold canUsePool. rewrite HD, HP. apply I1.
  - rewrite HS. intros q p Hq. specialize (Hk p). by rewrite (I2 q p Hq) in Hk.
  - rewrite HP. intros l Hl. destruct (I3 l Hl) as (ss & E & Hlen).
    specialize (Hk l). rewrite E in Hk. destruct Hk as (ss' & E' & Hss).
    exists ss'. split; [done|]. apply Forall2_length in Hss. lia.
  - done.
  - done.
  - done.
  - by rewrite HP.
  - by rewrite HS.
  - done.
Qed.

Lemma extends_refl s : extends s s.
Proof. split; first [done|apply same_tuning_refl|apply keeps_refl]. Qed.

Lemma extends_trans s1 s2 s3 : extends s1 s2 → extends s2 s3 → extends s1 s3.
Proof.
  intros [A1 A2 A3 A4 A5 A6] [B1 B2 B3 B4 B5 B6].
  split; [congruence|congruence|by eapply same_tuning_trans|eauto|eauto
         |by eapply keeps_trans].
Qed.

Lemma getPool_preserves s r s' :
  inv s → getPool s = (r, s') → inv s' ∧ extends s s'.
Proof.
  intros Hinv E. destruct (mPool (this s)) as [l|] eqn:Hp.
  { rewrite (getPool_built s l Hp) in E. inversion E; subst.
    split; [done|apply extends_refl]. }
  destruct (canUsePool (this s)) eqn:Hc.
  2:{ rewrite (getPool_refused s Hp Hc) in E. inversion E; subst.
      split; [done|apply extends_refl]. }
  destruct (decide (hardware_concurrency (proc s) = 0)) as [H0|H0].
  { rewrite (getPool_empty s Hp Hc H0) in E. inversion E; subst.
    destruct Hinv as [I1 I2 I3].
    split; split; simpl; first [done|apply same_tuning_refl|apply keeps_refl]. }
  destruct (getPool_build s Hp Hc H0) as (r' & bk & lg & ss & E' & Hlen & _ & _).
  rewrite E' in E. inversion E; subst. clear E E'.
  pose proof (fresh_loc_free (heap (proc s))) as Hfresh.
  destruct Hinv as [I1 I2 I3]. split; split; simpl; try done.
  - unfold canUsePool in *. simpl. by rewrite Hc.
  - intros q p Hq. rewrite lookup_insert_ne; [by apply I2|].
    intros <-. specialize (I2 q _ Hq). congruence.
  - intros l [= <-]. rewrite lookup_insert_eq. eauto.
  - by rewrite Hp.
  - by apply keeps_insert_fresh.
Qed.

Lemma getPreparedStatement_preserves q s r s' :
  inv s → getPreparedStatement q s = (r, s') → inv s' ∧ extends s s'.
Proof.
  intros Hinv E. destruct (mStatements (this s) !! q) as [p|] eqn:Hq.
  { rewrite (getPreparedStatement_hit s q p Hq) in E. inversion E; subst.
    split; [done|apply extends_refl]. }
  rewrite (getPreparedStatement_miss s q Hq) in E.
  pose proof (fresh_loc_free (heap (proc s))) as Hfresh.
  set (p := fresh (dom (heap (proc s)))) in *.
  set (h := traced _ _ _) in *.
  assert (keeps (heap (proc s)) h) as Hk.
  { eapply keeps_trans; [by apply (keeps_insert_fresh _ p (ObjStatement q))|].
    apply keeps_traced. }
  assert (h !! p = Some (ObjStatement q)) as Hp.
  { pose proof (keeps_traced (<[p := ObjStatement q]> (heap (proc s)))
                  (logStream_ (mSession (this s))) q p) as H.
    by rewrite lookup_insert_eq in H. }
  assert (∀ bk,
    inv (MkState (with_backend bk (with_heap h (proc s)))
           (with_mStatements (<[q := p]> (mStatements (this s))) (this s))) ∧
    extends s (MkState (with_backend bk (with_heap h (proc s)))
           (with_mStatements (<[q := p]> (mStatements (this s))) (this s)))) as Hok.
  { intros bk. destruct Hinv as [I1 I2 I3]. split; split; simpl; try done.
    - intros q' p'. destruct (decide (q' = q)) as [->|Hne].
      + rewrite lookup_insert_eq. by intros [= <-].
      + rewrite lookup_insert_ne by done. intros Hq'.
        specialize (Hk p'). by rewrite (I2 q' p' Hq') in Hk.
    - intros l Hl. destruct (I3 l Hl) as (ss & El & Hlen).
      specialize (Hk l). rewrite El in Hk. destruct Hk as (ss' & E' & Hss).
      exists ss'. split; [done|]. apply Forall2_length in Hss. lia.
    - intros q' p' Hq'. rewrite lookup_insert_ne; [done|]. intros <-. congruence. }
  destruct (backend (proc s)) as [|[msg|] rest] eqn:Hbk; inversion E; subst; clear E.
  - apply Hok.
  - apply (inv_keeps s rest (logged (proc s)) (delete p h) (this s)); try done.
    apply keeps_delete; [done|]. by rewrite Hfresh.
  - apply Hok.
Qed.

Lemma captureAndLogSQL_preserves name s r s' :
  inv s → captureAndLogSQL name s = (r, s') → inv s' ∧ extends s s'.
Proof.
  intros Hinv E. rewrite captureAndLogSQL_run in E. inversion E; subst.
  apply inv_keeps; try done. apply keeps_insert_fresh, fresh_loc_free.
Qed.

Lemma SQLLogContext_dtor_stray c s :
  match heap (proc s) !! c with Some (ObjSQLLogContext _ _ _) => False | _ => True end →
  SQLLogContext_dtor c s = (Abort, s).
Proof.
  intros H. unfold SQLLogContext_dtor. unfold mbind, M_bind, gets.
  destruct (heap (proc s) !! c) as [[]|]; done.
Qed.

Lemma SQLLogContext_dtor_preserves c s r s' :
  inv s → SQLLogContext_dtor c s = (r, s') → inv s' ∧ extends s s'.
Proof.
  intros Hinv E.
  destruct (heap (proc s) !! c) as [[q|ss|name sess cap]|] eqn:Hc.
  1,2,4: rewrite SQLLogContext_dtor_stray in E by (by rewrite Hc);
         inversion E; subst; split; [done|apply extends_refl].
  destruct (SQLLogContext_dtor_run c s name sess cap Hc) as (h & d & E' & Hhd).
  rewrite E' in E. inversion E; subst. clear E E'.
  destruct sess as [|l i]; destruct Hhd as [-> ->].
  - apply inv_keeps; try done. apply keeps_delete; [apply keeps_refl|by rewrite Hc].
  - apply inv_keeps; try done.
    apply keeps_delete; [by apply keeps_pool_update|by rewrite Hc].
Qed.

Lemma ignore_state {A} (m : M A) s : (ignore m s).2 = (m s).2.
Proof. unfold ignore, mbind, M_bind. by destruct (m s) as [[] ?]. Qed.

Lemma run_preserves c s r s' :
  inv s → run c s = (r, s') → inv s' ∧ extends s s'.
Proof.
  intros Hinv E.
  assert (s' = (run c s).2) as -> by (by rewrite E). clear E.
  destruct c as [| |q|name|c]; cbn [run].
  - destruct Hinv as [I1 I2 I3]. destruct s as [p d].
    unfold modify, on_proc, registerDrivers. simpl in *.
    destruct (negb (gDriversRegistered p));
      (split; split; simpl; first [done|apply same_tuning_refl|apply keeps_refl]).
  - rewrite ignore_state. destruct (getPool s) as [r' s'] eqn:E.
    by eapply getPool_preserves.
  - rewrite ignore_state. destruct (getPreparedStatement q s) as [r' s'] eqn:E.
    by eapply getPreparedStatement_preserves.
  - rewrite ignore_state. destruct (captureAndLogSQL name s) as [r' s'] eqn:E.
    by eapply captureAndLogSQL_preserves.
  - destruct (SQLLogContext_dtor c s) as [r' s'] eqn:E.
    by eapply SQLLogContext_dtor_preserves.
Qed.

Lemma steps_preserve s s' : steps s s' → inv s → inv s' ∧ extends s s'.
Proof.
  induction 1 as [s|s s' s'' _ IH (c & r & E & _)]; intros Hinv.
  - split; [done|apply extends_refl].
  - destruct (IH Hinv) as [Hinv' Hext].
    destruct (run_preserves c s' r s'' Hinv' E) as [Hinv'' Hext'].
    split; [done|by eapply extends_trans].
Qed.

Lemma steps_trans s1 s2 s3 : steps s1 s2 → steps s2 s3 → steps s1 s3.
Proof.
  intros H12 H23. induction H23 as [|? ? ? _ IH Hstep]; [done|].
  eapply steps_next; [by apply IH|done].
Qed.

Lemma reachable_steps s s' : reachable s → steps s s' → reachable s'.
Proof.
  intros (pg & hw & sc & uri & d & p & E & Hs) Hs'.
  exists pg, hw, sc, uri, d, p. split; [done|by eapply steps_trans].
Qed.

Lemma reachable_inv s : reachable s → inv s.
Proof.
  intros (pg & hw & sc & uri & d & p & E & Hs).
  apply (steps_preserve _ _ Hs).
  destruct (Database_new_spec uri (Process_start pg hw sc)) as (r & p' & E' & Hr & _).
  rewrite E' in E. inversion E; subst. clear E E'.
  destruct Hr as [[= ->]|[msg [=]]]. by split.
Qed.

(** ** Searching a string *)

Lemma substring_prefix (t b : string) :
  String.substring 0 (String.length t) (t +:+ b) = t.
Proof. induction t as [|ch t IH]; simpl; [by destruct b|by rewrite IH]. Qed.

Lemma substring_skip (a t : string) n :
  String.substring (String.length a) n (a +:+ t) = String.substring 0 n t.
Proof. induction a as [|ch a IH]; simpl; [done|apply IH]. Qed.

Lemma substring_here n : ∀ (s t : string),
  String.substring 0 n s = t → String.length t = n → ∃ b, s = t +:+ b.
Proof.
  induction n as [|n IH]; intros s t Hsub Hlen.
  - destruct t; [|done]. by exists s.
  - destruct s as [|ch s]; simpl in Hsub; [by subst|].
    subst t. simpl in Hlen. injection Hlen as Hlen.
    destruct (IH s _ eq_refl Hlen) as [b Hb]. exists b.
    change (String ch s = String ch (String.substring 0 n s +:+ b)). by f_equal.
Qed.

Lemma substring_split m : ∀ n (s t : string),
  String.substring m n s = t → String.length t = n → ∃ a b, s = a +:+ t +:+ b.
Proof.
  induction m as [|m IH]; intros n s t Hsub Hlen.
  - destruct (substring_here n s t Hsub Hlen) as [b ->]. by exists "", b.
  - destruct s as [|ch s]; simpl in Hsub.
    + subst t. by exists "", "".
    + destruct (IH n s t Hsub Hlen) as (a & b & ->). by exists (String ch a), b.
Qed.

Lemma contains_spec (needle hay : string) :
  needle ≠ "" →
  contains needle hay = true ↔ ∃ a b, hay = a +:+ needle +:+ b.
Proof.
  intros Hne. unfold contains. split.
  - destruct (String.index 0 needle hay) as [m|] eqn:E; [|done]. intros _.
    apply String.index_correct1 in E. by eapply substring_split.
  - intros (a & b & ->).
    destruct (String.index 0 needle (a +:+ needle +:+ b)) eqn:E; [done|].
    exfalso.
    apply (String.index_correct3 0 (String.length a) _ _ E Hne); [lia|].
    by rewrite substring_skip, substring_prefix.
Qed.



(** ** Building the pool, call by call *)

Lemma answered_seq a b c n m :
  answered a n b → answered b m c → answered a (n + m) c.
Proof.
  intros [H1 ->] [H2 ->]. split.
  - rewrite <- take_take_drop. by apply Forall_app.
  - by rewrite drop_drop.
Qed.

Lemma answered_refused a b n k msg rest :
  answered a n b → refused_after b k msg rest →
  refused_after a (n + k) msg rest.
Proof.
  unfold refused_after. intros [H1 ->] H2.
  assert (n ≤ length a) as Hn.
  { destruct (decide (n ≤ length a)) as [|Hgt]; [done|].
    rewrite drop_ge in H2 by lia. by destruct k. }
  rewrite <- (take_drop n a) at 1. rewrite H2, replicate_add, <- app_assoc.
  f_equal. symmetry. apply replicate_as_Forall. split.
  - rewrite length_take. lia.
  - eapply Forall_impl; [exact H1|done].
Qed.

Lemma script_after_seq {A B} a b c n m (x : A) (r : Result B) :
  script_after a n (Ok x) b → script_after b m r c →
  script_after a (n + m) r c.
Proof.
  intros H1 H2. destruct r as [y|[what|msg]|]; simpl in *; try done.
  - by eapply answered_seq.
  - destruct H2 as (k & Hk & H2). exists (n + k). split; [lia|].
    by eapply answered_refused.
Qed.

Lemma script_after_stop {A B} a b n m (e : exception) :
  script_after a n (Throw e : Result A) b →
  script_after a (n + m) (Throw e : Result B) b.
Proof.
  destruct e as [what|msg]; simpl; [done|].
  intros (k & Hk & H). exists k. split; [lia|done].
Qed.

Lemma backend_call_script s :
  script_after (backend (proc s)) 1 (backend_call s).1
    (backend (proc (backend_call s).2)).
Proof.
  unfold backend_call. destruct s as [[pg reg fs hw bk lg hp] d]. simpl.
  destruct bk as [|[msg|] rest]; simpl.
  - split; [by constructor|done].
  - exists 0. split; [lia|done].
  - split; [by repeat constructor|done].
Qed.

Lemma session_open_script r c s :
  script_after (backend (proc s)) 1 (session_open r c s).1
    (backend (proc (session_open r c s).2)).
Proof.
  pose proof (backend_call_script s) as H. unfold session_open.
  destruct (backend_call s) as [[[]|e|] s1] eqn:E; simpl in H.
  - erewrite bind_Ok by exact E.
    destruct (update_session_run r (opened c) s1) as (h & d & -> & _). done.
  - erewrite bind_Throw by exact E. done.
  - done.
Qed.

Lemma log_query_backend r sql s :
  (log_query r sql s).1 = Ok () ∧
  backend (proc (log_query r sql s).2) = backend (proc s).
Proof.
  unfold log_query. destruct s as [[pg reg fs hw bk lg hp] d].
  by destruct (read_session r _) as [[? ? [?|]]|].
Qed.

Lemma session_exec_script r sql s :
  script_after (backend (proc s)) 1 (session_exec r sql s).1
    (backend (proc (session_exec r sql s).2)).
Proof.
  destruct (log_query_backend r sql s) as [H0 Hbk]. unfold session_exec.
  destruct (log_query r sql s) as [r0 s0] eqn:E0. simpl in H0, Hbk. subst r0.
  erewrite bind_Ok by exact E0. rewrite <- Hbk.
  pose proof (backend_call_script s0) as H.
  destruct (backend_call s0) as [[[]|e|] s1] eqn:E; simpl in H.
  - erewrite bind_Ok by exact E.
    destruct (update_session_run r (sent sql) s1) as (h & d & -> & _). done.
  - erewrite bind_Throw by exact E. done.
  - done.
Qed.

Lemma open_entry_outcome l i s ss x :
  heap (proc s) !! l = Some (ObjPool ss) → ss !! i = Some x →
  logStream_ x = None →
  ∃ r bk lg x',
    open_entry l (DATABASE (this s)) i s =
      (r, put s bk lg (<[l := ObjPool (<[i := x']> ss)]> (heap (proc s))) (this s)) ∧
    (r = Ok () ∧ x' = pooled (this s) x
     ∨ (∃ msg, r = Throw (soci_error msg)) ∧ half_open (this s) x x') ∧
    script_after (backend (proc s)) (calls_per_entry (this s)) r bk.
Proof.
  intros Hl Hi Hx.
  assert (Hlen : i < length ss) by (eapply lookup_lt_Some; eauto).
  unfold open_entry, LOG, CLOG, pool_at, setSerializable.
  unfold mbind at 1 2, M_bind at 1 2, modify at 1. simp_state. rewrite Hl.
  destruct (decide (i < length ss)) as [_|]; [|lia].
  set (s1 := MkState _ _).
  destruct (session_open_entry l i (DATABASE (this s)) s1 ss x Hl Hi)
    as (r & bk & x' & E & Hr & _).
  pose proof (session_open_script (pool_entry l i) (DATABASE (this s)) s1) as Ho.
  rewrite E in Ho. change (script_after (backend (proc s)) 1 r bk) in Ho.
  unfold mbind at 1, M_bind at 1. rewrite E. clear E.
  unfold calls_per_entry.
  destruct Hr as [[-> ->]|[[msg ->] ->]].
  2:{ eexists _, _, _, _. split; [reflexivity|]. split.
      - right. split; [eauto|by left].
      - destruct (isSqlite (this s)); [done|].
        exact (script_after_stop (A:=unit) (B:=unit) _ _ 1 1 _ Ho). }
  unfold mbind, M_bind, gets. simpl. unfold pooled.
  destruct (isSqlite (this s)) eqn:Esq; simpl.
  { eexists _, _, _, _. split; [reflexivity|]. split; [by left|done]. }
  set (s2 := put _ _ _ _ _).
  destruct (session_exec_entry l i SET_SERIALIZABLE s2
              (<[i := opened (DATABASE (this s)) x]> ss)
              (opened (DATABASE (this s)) x)) as (r & bk' & x' & E & Hr & _);
    [by (subst s2; simpl; rewrite lookup_insert_eq)
    |by apply list_lookup_insert_eq | done |].
  pose proof (session_exec_script (pool_entry l i) SET_SERIALIZABLE s2) as Ho'.
  rewrite E in Ho'. change (script_after bk 1 r bk') in Ho'.
  rewrite E. subst s2 s1. unfold put; simpl.
  rewrite insert_insert_eq, list_insert_insert_eq.
  eexists _, _, _, _. split; [reflexivity|]. split.
  - destruct Hr as [[-> ->]|[[msg ->] ->]]; [by left|].
    right. split; [eauto|]. right. by rewrite Esq.
  - by apply (script_after_seq _ bk _ 1 1 ()).
Qed.

Lemma pool_loop_outcome l : ∀ rest done s,
  heap (proc s) !! l = Some (ObjPool (done ++ rest)) →
  Forall (λ x, logStream_ x = None) rest →
  ∃ r bk lg ss,
    for_each (seq (length done) (length rest)) (open_entry l (DATABASE (this s))) s =
      (r, put s bk lg (<[l := ObjPool ss]> (heap (proc s))) (this s)) ∧
    (r = Ok () ∧ ss = done ++ (pooled (this s) <$> rest)
     ∨ (∃ msg, r = Throw (soci_error msg)) ∧
       ∃ ready x x' left,
         rest = ready ++ x :: left ∧
         ss = done ++ (pooled (this s) <$> ready) ++ x' :: left ∧
         half_open (this s) x x') ∧
    script_after (backend (proc s)) (calls_per_entry (this s) * length rest) r bk.
Proof.
  induction rest as [|x rest IH]; intros done s Hl Hrest.
  - simpl. exists (Ok ()), (backend (proc s)), (logged (proc s)), (done ++ []).
    split; [|split; [by left|]].
    + rewrite insert_id by done. by rewrite put_id.
    + rewrite Nat.mul_0_r. split; [by constructor|done].
  - inversion Hrest as [|? ? Hx Hrest']; subst.
    cbn [length seq for_each].
    replace (calls_per_entry (this s) * S (length rest))
      with (calls_per_entry (this s) + calls_per_entry (this s) * length rest) by lia.
    destruct (open_entry_outcome l (length done) s (done ++ x :: rest) x Hl)
      as (r & bk & lg & x' & E & Hr & Ho); [by apply list_lookup_middle | done |].
    assert (<[length done := x']> (done ++ x :: rest) = (done ++ [x']) ++ rest) as Eins.
    { rewrite insert_app_r_alt by lia. rewrite Nat.sub_diag. simpl. by rewrite <- app_assoc. }
    rewrite Eins in E.
    destruct Hr as [[-> ->]|[[msg ->] Hhalf]].
    2:{ erewrite bind_Throw by exact E.
        eexists _, _, _, _. split; [reflexivity|]. split.
        - right. split; [eauto|].
          exists [], x, x', rest. split; [done|]. split; [|done].
          simpl. by rewrite <- app_assoc.
        - exact (script_after_stop (A:=unit) (B:=unit) _ _ _ _ _ Ho). }
    erewrite bind_Ok by exact E. clear E.
    set (s1 := put _ _ _ _ _).
    destruct (IH (done ++ [pooled (this s) x]) s1) as (r & bk' & lg' & ss & E & Hr & Ho');
      [by (subst s1; simpl; rewrite lookup_insert_eq) | done |].
    replace (length (done ++ [pooled (this s) x])) with (S (length done)) in E
      by (rewrite length_app; simpl; lia).
    change (DATABASE (this s1)) with (DATABASE (this s)) in E.
    change (script_after bk (calls_per_entry (this s) * length rest) r bk') in Ho'.
    rewrite E. subst s1. unfold put. simpl. rewrite insert_insert_eq.
    eexists _, _, _, _. split; [reflexivity|]. split.
    + destruct Hr as [[-> ->]|[[msg ->] (ready & y & y' & left & -> & -> & Hhalf)]].
      * left. split; [done|]. simpl. by rewrite <- app_assoc.
      * right. split; [eauto|].
        exists (x :: ready), y, y', left. split; [done|]. split; [|done].
        simpl. by rewrite <- !app_assoc.
    + by eapply script_after_seq.
Qed.

Lemma getPool_build_outcome s :
  mPool (this s) = None → canUsePool (this s) = true →
  hardware_concurrency (proc s) ≠ 0 →
  let l := fresh (dom (heap (proc s))) in
  ∃ r bk lg ss,
    getPool s = (r, put s bk lg (<[l := ObjPool ss]> (heap (proc s)))
                      (with_mPool (Some l) (this s))) ∧
    (r = Ok l ∧
     ss = replicate (hardware_concurrency (proc s)) (pooled (this s) new_session)
     ∨ (∃ msg, r = Throw (soci_error msg)) ∧
       ∃ k x' left,
         ss = replicate k (pooled (this s) new_session) ++
              x' :: replicate left new_session ∧
         k + S left = hardware_concurrency (proc s) ∧
         half_open (this s) new_session x') ∧
    script_after (backend (proc s))
      (calls_per_entry (this s) * hardware_concurrency (proc s)) r bk.
Proof.
  intros H1 H2 H0 l. unfold getPool, LOG, CLOG, new_connection_pool, new_object.
  unfold mbind at 1 2, M_bind at 1 2, gets at 1. simpl. rewrite H1.
  unfold mbind at 1 2 3 4 5 6 7, M_bind at 1 2 3 4 5 6 7, gets at 1 2 3, modify at 1 2.
  simpl. rewrite H2. simpl.
  destruct (decide (hardware_concurrency (proc s) = 0)) as [|_]; [done|].
  unfold mret at 1, M_ret at 1. simp_state. fold l.
  set (n := hardware_concurrency (proc s)).
  set (s1 := MkState _ _).
  destruct (pool_loop_outcome l (replicate n new_session) [] s1)
    as (r & bk & lg & ss & E & Hr & Ho).
  { subst s1. simpl. by rewrite lookup_insert_eq. }
  { by apply Forall_replicate. }
  simpl in E. rewrite length_replicate in E.
  rewrite length_replicate in Ho.
  change (script_after (backend (proc s)) (calls_per_entry (this s) * n) r bk) in Ho.
  rewrite E. clear E. subst s1. unfold put; simp_state. rewrite insert_insert_eq.
  destruct Hr as [[-> ->]|[[msg ->] (ready & x & x' & left & Hrest & -> & Hhalf)]]; simpl.
  - eexists _, _, _, _. split; [reflexivity|]. split; [|done]. left. split; [done|].
    by rewrite fmap_replicate.
  - eexists _, _, _, _. split; [reflexivity|]. split; [|done]. right. split; [eauto|].
    assert (length (ready ++ x :: left) = n) as Hlen
      by (by rewrite <- Hrest, length_replicate).
    rewrite length_app in Hlen. simpl in Hlen.
    assert (∀ y, y ∈ ready ++ x :: left → y = new_session) as Hall.
    { intros y Hy. rewrite <- Hrest in Hy. by apply elem_of_replicate in Hy as [-> _]. }
    assert (ready = replicate (length ready) new_session) as Hready.
    { symmetry. apply replicate_as_Forall. split; [done|]. apply Forall_forall.
      intros y Hy. symmetry. apply Hall. apply elem_of_app. left. done. }
    assert (left = replicate (length left) new_session) as Hleft.
    { symmetry. apply replicate_as_Forall. split; [done|]. apply Forall_forall.
      intros y Hy. symmetry. apply Hall. apply elem_of_app. right. by right. }
    assert (x = new_session) as ->.
    { apply Hall. apply elem_of_app. right. by left. }
    exists (length ready), x', (length left).
    split; [|split; [lia|done]].
    rewrite Hready at 1. rewrite fmap_replicate. by rewrite <- Hleft.
Qed.

(** ** Pool entries are tuned, or not yet *)








(** * The properties of the specification *)

(** ** Driver registration *)

Lemma registerDrivers_twice p :
  registerDrivers (registerDrivers p) = registerDrivers p.
Proof.
  unfold registerDrivers.
  destruct (gDriversRegistered p) eqn:E; simpl; [by rewrite E|done].
Qed.

Lemma registerDrivers_iter n p :
  Nat.iter (S n) registerDrivers p = registerDrivers p.
Proof.
  induction n as [|n IH]; [done|].
  change (Nat.iter (S (S n)) registerDrivers p)
    with (registerDrivers (Nat.iter (S n) registerDrivers p)).
  by rewrite IH, registerDrivers_twice.
Qed.

(** C5. [registerDrivers] is idempotent: any number [S n] of calls leaves
    the process exactly as one call does, and in a process that starts with
    nothing registered each backend factory has then been registered once
    (sqlite3, and postgresql when the build has it).  The function has no
    failing outcome. *)
Theorem registerDrivers_idempotent n p use_postgres hw script :
  Nat.iter (S n) registerDrivers p = registerDrivers p ∧
  gDriversRegistered (Nat.iter (S n) registerDrivers p) = true ∧
  factories (Nat.iter (S n) registerDrivers (Process_start use_postgres hw script)) =
    "sqlite3" :: (if use_postgres then ["postgresql"] else []).
Proof.
  rewrite !registerDrivers_iter. split; [done|]. split.
  - unfold registerDrivers. by destruct (gDriversRegistered p) eqn:E.
  - unfold registerDrivers. simpl. by destruct use_postgres.
Qed.

(** ** The connection pool *)

(** C1. On a configuration that does not allow pooling, [getPool] throws
    the exception whose message ends with the configured URI, the pool stays
    unbuilt and the state is left as it was, so the call can be repeated any
    number of times with the same outcome. *)
Theorem getPool_refused_without_pool s n :
  reachable s → canUsePool (this s) = false →
  let failure :=
    Throw (runtime_error ("Can't create connection pool to " +:+ DATABASE (this s))) in
  getPool s = (failure, s) ∧
  mPool (this s) = None ∧
  getPool (Nat.iter n (λ t, (getPool t).2) s) = (failure, s).
Proof.
  intros Hs Hc failure.
  pose proof (inv_pool_allowed s (reachable_inv s Hs) Hc) as Hp.
  assert (getPool s = (failure, s)) as E by by apply getPool_refused.
  split; [done|]. split; [done|].
  assert (Nat.iter n (λ t, (getPool t).2) s = s) as ->; [|done].
  induction n as [|n IH]; [done|]. simpl. rewrite IH. by rewrite E.
Qed.

Lemma getPool_refused_without_pool_witness :
  getPool memory_node =
    (Throw (runtime_error "Can't create connection pool to sqlite3://:memory:"),
     memory_node) ∧
  mPool (this memory_node) = None ∧
  getPool (Nat.iter 3 (λ t, (getPool t).2) memory_node) =
    (Throw (runtime_error "Can't create connection pool to sqlite3://:memory:"),
     memory_node).
Proof.
  apply (getPool_refused_without_pool memory_node 3).
  - exists false, 4, [], "sqlite3://:memory:". eexists _, _.
    split; [vm_compute; reflexivity|apply steps_refl].
  - reflexivity.
Defined.

(** C4. [canUsePool] answers false exactly for the in-memory sqlite URI,
    true for every other one, and when it answers false [getPool] throws
    the [runtime_error]. *)
Theorem canUsePool_only_memory s :
  reachable s →
  (canUsePool (this s) = false ↔ DATABASE (this s) = "sqlite3://:memory:") ∧
  (canUsePool (this s) = true ↔ DATABASE (this s) ≠ "sqlite3://:memory:") ∧
  (canUsePool (this s) = false →
   ∃ what, getPool s = (Throw (runtime_error what), s)).
Proof.
  intros Hs.
  assert (canUsePool (this s) = false ↔ DATABASE (this s) = "sqlite3://:memory:")
    as Hiff.
  { unfold canUsePool. rewrite negb_false_iff. apply String.eqb_eq. }
  split; [done|]. split.
  - rewrite <- Hiff. by destruct (canUsePool (this s)).
  - intros Hc. eexists. apply getPool_refused; [|done].
    by apply (inv_pool_allowed s (reachable_inv s Hs)).
Qed.

Lemma canUsePool_only_memory_witness :
  canUsePool (this memory_node) = false ∧
  DATABASE (this memory_node) = "sqlite3://:memory:" ∧
  ∃ what, getPool memory_node = (Throw (runtime_error what), memory_node).
Proof.
  destruct (canUsePool_only_memory memory_node) as (Hiff & _ & Hthrow).
  - exists false, 4, [], "sqlite3://:memory:". eexists _, _.
    split; [vm_compute; reflexivity|apply steps_refl].
  - split; [reflexivity|]. split; [reflexivity|]. apply Hthrow. reflexivity.
Defined.

Lemma getPool_returns s :
  mPool (this s) = None → canUsePool (this s) = true →
  hardware_concurrency (proc s) ≠ 0 → no_faults (proc s) →
  ∃ s', getPool s = (Ok (fresh (dom (heap (proc s)))), s').
Proof.
  intros Hp Hc H0 Hnf.
  destruct (getPool_build s Hp Hc H0) as (r & bk & lg & ss & E & _ & _ & Hok).
  rewrite (Hok Hnf) in E. eauto.
Qed.




(** What the theorems above leave open, on a sample: when the backing
    store refuses a pool entry, [getPool] throws with the pool already
    installed, and the next call returns that pool with the entry still
    closed. *)
Example pool_after_refused_entry :
  (getPool flaky_node).1 = Throw (soci_error "too many clients") ∧
  (getPool (getPool flaky_node).2).1 = Ok 1%positive ∧
  heap (proc (getPool flaky_node).2) !! 1%positive =
    Some (ObjPool [Session (Some "postgresql://dbname=stellar")
                     [SET_SERIALIZABLE] None;
                   new_session]).
Proof. vm_compute. done. Qed.

(** ** Session tuning *)

Lemma Database_new_returns uri p :
  no_faults p →
  ∃ p', Database_new uri p = (Ok (MkDatabase uri (primary_session uri) None ∅), p').
Proof.
  intros Hnf.
  destruct (Database_new_spec uri p) as (r & p' & E & _ & _ & _ & Hok).
  rewrite (Hok Hnf) in E. eauto.
Qed.

Lemma isSqlite_memory d : isSqlite d = false → canUsePool d = true.
Proof.
  unfold isSqlite, canUsePool. intros Hsq.
  destruct (String.eqb_spec (DATABASE d) "sqlite3://:memory:") as [E|]; [|done].
  by rewrite E in Hsq.
Qed.

(** On a networked backend that answers every call, the first [getPool]
    builds the pool and returns it. *)
Lemma getPool_networked_returns s :
  isSqlite (this s) = false → mPool (this s) = None →
  hardware_concurrency (proc s) ≠ 0 → no_faults (proc s) →
  ∃ s', getPool s = (Ok (fresh (dom (heap (proc s)))), s').
Proof.
  intros Hsq Hp H0 Hnf. apply getPool_returns; [done| |done|done].
  by apply isSqlite_memory.
Qed.




(** The two sqlite samples: the pragma and nothing else. *)
Example embedded_primary_sessions :
  executed (mSession (this file_node)) = ["PRAGMA journal_mode = WAL"] ∧
  executed (mSession (this memory_node)) = ["PRAGMA journal_mode = WAL"].
Proof. split; reflexivity. Qed.

(** ** The statement cache *)

Lemma getPreparedStatement_Ok q s sc s' :
  getPreparedStatement q s = (Ok sc, s') →
  mStatements (this s') !! q = Some (mStmt sc).
Proof.
  intros E. destruct (mStatements (this s) !! q) as [p|] eqn:Hq.
  { rewrite (getPreparedStatement_hit s q p Hq) in E. by inversion E; subst. }
  rewrite (getPreparedStatement_miss s q Hq) in E.
  destruct (backend (proc s)) as [|[msg|] rest]; inversion E; subst; simpl;
    by rewrite lookup_insert_eq.
Qed.

(** C2. Once a request for a query text has been served, the statement
    context it got points at a live statement object prepared with that
    text, and the object stays alive with that text through every later
    call; every later request for the same text on that manager, whatever
    was asked in between, returns normally with the very same statement
    object and changes nothing; and a later request for a different text
    that returns hands out another statement object, prepared with the
    other text and alive at the same time as the first. *)
Theorem getPreparedStatement_shares s q1 sc1 s1 s1' :
  reachable s →
  getPreparedStatement q1 s = (Ok sc1, s1) →
  steps s1 s1' →
  heap (proc s1) !! mStmt sc1 = Some (ObjStatement q1) ∧
  heap (proc s1') !! mStmt sc1 = Some (ObjStatement q1) ∧
  getPreparedStatement q1 s1' = (Ok sc1, s1') ∧
  ∀ q2 sc2 s2,
    q2 ≠ q1 → getPreparedStatement q2 s1' = (Ok sc2, s2) →
    mStmt sc2 ≠ mStmt sc1 ∧
    heap (proc s2) !! mStmt sc2 = Some (ObjStatement q2) ∧
    heap (proc s2) !! mStmt sc1 = Some (ObjStatement q1).
Proof.
  intros Hs E1 Hsteps.
  pose proof (reachable_inv s Hs) as Hinv.
  destruct (getPreparedStatement_preserves q1 s _ s1 Hinv E1) as [Hinv1 _].
  destruct (steps_preserve s1 s1' Hsteps Hinv1) as [Hinv1' Hext1].
  pose proof (getPreparedStatement_Ok q1 s sc1 s1 E1) as H1.
  pose proof (inv_statements s1 Hinv1 _ _ H1) as L1.
  apply (ext_statements _ _ Hext1) in H1.
  pose proof (inv_statements s1' Hinv1' _ _ H1) as L1'.
  split; [done|]. split; [done|]. split.
  - rewrite (getPreparedStatement_hit s1' q1 _ H1). by destruct sc1.
  - intros q2 sc2 s2 Hne E2.
    destruct (getPreparedStatement_preserves q2 s1' _ s2 Hinv1' E2) as [Hinv2 Hext2].
    pose proof (getPreparedStatement_Ok q2 s1' sc2 s2 E2) as H2.
    apply (ext_statements _ _ Hext2) in H1.
    pose proof (inv_statements s2 Hinv2 _ _ H1) as O1.
    pose proof (inv_statements s2 Hinv2 _ _ H2) as O2.
    split; [|done]. intros Heq. rewrite Heq in O2. congruence.
Qed.

Lemma getPreparedStatement_shares_witness :
  heap (proc one_statement_node) !! 1%positive = Some (ObjStatement "SELECT 1") ∧
  heap (proc two_statements_node) !! 1%positive = Some (ObjStatement "SELECT 1") ∧
  getPreparedStatement "SELECT 1" two_statements_node =
    (Ok (MkStatementContext 1%positive), two_statements_node) ∧
  (getPreparedStatement "SELECT 2" two_statements_node).1 =
    Ok (MkStatementContext 2%positive) ∧
  2%positive ≠ 1%positive ∧
  heap (proc two_statements_node) !! 2%positive = Some (ObjStatement "SELECT 2") ∧
  heap (proc two_statements_node) !! 1%positive = Some (ObjStatement "SELECT 1").
Proof.
  destruct (getPreparedStatement_shares file_node "SELECT 1"
              (MkStatementContext 1%positive) one_statement_node
              two_statements_node) as (Hlive & Hlive' & Hsame & Hother).
  - exists false, 4, [], "sqlite3://stellar.db". eexists _, _.
    split; [vm_compute; reflexivity|apply steps_refl].
  - vm_compute. reflexivity.
  - eapply steps_next; [apply steps_refl|].
    exists (call_getPreparedStatement "SELECT 2"), (Ok ()).
    split; [vm_compute; reflexivity|discriminate].
  - split; [exact Hlive|]. split; [exact Hlive'|]. split; [exact Hsame|].
    split; [vm_compute; reflexivity|].
    apply (Hother "SELECT 2" (MkStatementContext 2%positive) two_statements_node).
    + discriminate.
    + vm_compute. reflexivity.
Defined.

(** C9. When the backing store rejects the preparation of a query that is
    not in the cache, [getPreparedStatement] throws that error, the manager
    (and so its cache) is exactly as before, the statement object it had
    allocated is gone from the heap, and the query is still uncached: the
    next request for it asks the backing store again and its outcome is the
    store's next answer. *)
Theorem prepare_failure_not_cached s q msg rest :
  mStatements (this s) !! q = None →
  backend (proc s) = Some msg :: rest →
  ∃ s',
    getPreparedStatement q s = (Throw (soci_error msg), s') ∧
    this s' = this s ∧
    mStatements (this s') !! q = None ∧
    dom (heap (proc s')) = dom (heap (proc s)) ∧
    backend (proc s') = rest ∧
    (getPreparedStatement q s').1 =
      match rest with
      | Some msg' :: _ => Throw (soci_error msg')
      | _ => Ok (MkStatementContext (fresh (dom (heap (proc s')))))
      end.
Proof.
  intros Hq Hbk. rewrite (getPreparedStatement_miss s q Hq), Hbk.
  eexists. split; [reflexivity|]. simpl. split; [done|]. split; [done|].
  set (p := fresh (dom (heap (proc s)))).
  set (h := traced _ _ _).
  assert (dom (delete p h) = dom (heap (proc s))) as Hdom.
  { pose proof (is_fresh (dom (heap (proc s)))) as Hfresh. fold p in Hfresh.
    assert (dom h = {[p]} ∪ dom (heap (proc s))) as Hh.
    { subst h. destruct (logStream_ (mSession (this s))); simpl;
        rewrite ?dom_alter_L; apply dom_insert_L. }
    rewrite dom_delete_L, Hh.
    apply set_eq. intros k.
    rewrite elem_of_difference, elem_of_union, elem_of_singleton.
    split; [by intros [[?|?] ?]|].
    intros Hk. split; [by right|]. by intros ->. }
  split; [done|]. split; [done|].
  rewrite getPreparedStatement_miss by done. simpl.
  by destruct rest as [|[msg'|] rest'].
Qed.

Lemma prepare_failure_not_cached_witness :
  ∃ s',
    getPreparedStatement "SELEC 1" failing_node =
      (Throw (soci_error "syntax error"), s') ∧
    this s' = this failing_node ∧
    mStatements (this s') !! "SELEC 1" = None ∧
    dom (heap (proc s')) = dom (heap (proc failing_node)) ∧
    backend (proc s') = [None] ∧
    (getPreparedStatement "SELEC 1" s').1 =
      Ok (MkStatementContext (fresh (dom (heap (proc s'))))).
Proof.
  apply (prepare_failure_not_cached failing_node "SELEC 1" "syntax error" [None]);
    reflexivity.
Defined.

(** ** SQL capture *)

(** C6. Ending a capture scope always succeeds and adds to the log exactly
    one block: two empty lines, the separator, the begin line with the name
    of the capture, the separator, one line per line of captured text in the
    order it was captured, each behind the tag carrying the name, then the
    separator, the end line, the separator and two empty lines.  The text a
    session traces for a list of one-line queries reads back as those
    queries, and with nothing captured the block has no line between the
    delimiters. *)
Theorem capture_block_logged c s name sess captured :
  heap (proc s) !! c = Some (ObjSQLLogContext name sess captured) →
  ∃ s',
    SQLLogContext_dtor c s = (Ok (), s') ∧
    logged (proc s') =
      logged (proc s) ++
      (Line INFO "Database" <$>
         ["" ; "" ; "[SQL] -----------------------" ;
          "[SQL] begin capture: " +:+ name ;
          "[SQL] -----------------------"] ++
         ((λ buf, "[SQL:" +:+ name +:+ "] " +:+ buf) <$> captured_lines captured) ++
         ["[SQL] -----------------------" ;
          "[SQL] end capture: " +:+ name ;
          "[SQL] -----------------------" ; "" ; ""]) ∧
    (captured = "" → captured_lines captured = []) ∧
    (∀ queries, Forall (λ q, one_line q = true) queries →
       captured = trace_of queries → captured_lines captured = queries).
Proof.
  intros Hc.
  destruct (SQLLogContext_dtor_run c s name sess captured Hc) as (h & d & E & _).
  eexists. split; [exact E|]. split; [done|]. split.
  - by intros ->.
  - intros queries Hq ->. by apply captured_lines_trace.
Qed.

Lemma capture_block_logged_witness :
  ∃ s',
    SQLLogContext_dtor 1%positive captured_node = (Ok (), s') ∧
    logged (proc s') =
      logged (proc captured_node) ++
      (Line INFO "Database" <$>
         ["" ; "" ; "[SQL] -----------------------" ;
          "[SQL] begin capture: first" ;
          "[SQL] -----------------------" ;
          "[SQL:first] A" ; "[SQL:first] B" ; "[SQL:first] C" ;
          "[SQL] -----------------------" ;
          "[SQL] end capture: first" ;
          "[SQL] -----------------------" ; "" ; ""]).
Proof.
  destruct (capture_block_logged 1%positive captured_node "first" mSession_ref
              (trace_of ["A"; "B"; "C"])) as (s' & E & Hlog & _ & Hlines).
  - vm_compute. reflexivity.
  - exists s'. split; [exact E|].
    rewrite Hlog, (Hlines ["A"; "B"; "C"]); [reflexivity| |reflexivity].
    repeat constructor.
Defined.



(** ** Balances *)

(** C10. [getBalance] answers from the record its collaborator loads: for
    the native currency the balance of the account when it is found, for
    any other currency the balance of the trust line when it is found and
    authorized, and 0 in every other case. *)
Theorem getBalance_funds loadAccount loadTrustLine TrustFrame_getBalance
    accountID currency s :
  (Currency_type currency = NATIVE →
   ∀ found account s',
     loadAccount accountID AccountFrame_new s = (Ok (found, account), s') →
     getBalance loadAccount loadTrustLine TrustFrame_getBalance accountID currency s =
       (Ok (if found then account_balance (getAccount account) else 0%Z), s')) ∧
  (Currency_type currency ≠ NATIVE →
   ∀ found trustLine s',
     loadTrustLine accountID currency TrustFrame_new s = (Ok (found, trustLine), s') →
     getBalance loadAccount loadTrustLine TrustFrame_getBalance accountID currency s =
       (Ok (if found && authorized (getTrustLine trustLine)
            then TrustFrame_getBalance trustLine else 0%Z), s')).
Proof.
  unfold getBalance. split.
  - intros -> found account s' E. erewrite bind_Ok by exact E.
    by destruct found.
  - intros Hne found trustLine s' E.
    destruct (Currency_type currency); [done|].
    erewrite bind_Ok by exact E.
    by destruct found, (authorized (getTrustLine trustLine)).
Qed.

Lemma getBalance_funds_witness :
  getBalance sample_loadAccount sample_loadTrustLine sample_getBalance
    7%N Currency_native file_node = (Ok 1500%Z, file_node) ∧
  getBalance sample_loadAccount sample_loadTrustLine sample_getBalance
    3%N Currency_native file_node = (Ok 0%Z, file_node) ∧
  getBalance sample_loadAccount sample_loadTrustLine sample_getBalance
    7%N sample_currency file_node = (Ok 250%Z, file_node) ∧
  getBalance sample_loadAccount sample_loadTrustLine sample_getBalance
    8%N sample_currency file_node = (Ok 0%Z, file_node) ∧
  getBalance sample_loadAccount sample_loadTrustLine sample_getBalance
    3%N sample_currency file_node = (Ok 0%Z, file_node).
Proof.
  pose proof (getBalance_funds sample_loadAccount sample_loadTrustLine
                sample_getBalance) as funds.
  split; [|split; [|split; [|split]]].
  - apply (proj1 (funds 7%N Currency_native file_node) eq_refl
                 true (MkAccountFrame (MkAccountEntry 7%N 1500%Z))).
    reflexivity.
  - apply (proj1 (funds 3%N Currency_native file_node) eq_refl
                 false AccountFrame_new).
    reflexivity.
  - apply (proj2 (funds 7%N sample_currency file_node)
                 ltac:(discriminate) true
                 (MkTrustFrame (MkTrustLineEntry 7%N sample_currency 250%Z true))).
    reflexivity.
  - apply (proj2 (funds 8%N sample_currency file_node)
                 ltac:(discriminate) true
                 (MkTrustFrame (MkTrustLineEntry 8%N sample_currency 90%Z false))).
    reflexivity.
  - apply (proj2 (funds 3%N sample_currency file_node)
                 ltac:(discriminate) false TrustFrame_new).
    reflexivity.
Defined.

(** * Further properties of the code *)

(** ** Which URIs count as sqlite *)

(** X1. [isSqlite] holds exactly for the URIs in which the text
    "sqlite3:" occurs somewhere, at the front or not: the test is a
    search, not a comparison of the scheme. *)
Theorem isSqlite_anywhere d :
  isSqlite d = true ↔ ∃ a b, DATABASE d = a +:+ "sqlite3:" +:+ b.
Proof. unfold isSqlite. by apply contains_spec. Qed.

(** ** How building the pool can end *)

(** X2. [getPool] never trips [assert(mPool)], and the pool never throws
    for an entry it does not have.  From any state the call ends in one of
    four ways.  It returns the pool the manager holds from then on.  It
    throws the [runtime_error] naming the URI, which happens exactly when
    no pool is built and the URI does not allow one, and then nothing has
    changed.  On a machine that reports no hardware thread, the pool
    refuses to be created empty: the error reads Invalid pool size and the
    manager still has no pool.  Otherwise the error thrown is the first
    refusal of the backing store, met within the calls that opening the
    entries makes (one per entry for sqlite, two otherwise), and the script
    of the store has been consumed up to that refusal and no further. *)
Theorem getPool_outcome s :
  match (getPool s).1 with
  | Ok l => mPool (this (getPool s).2) = Some l
  | Throw (runtime_error what) =>
      mPool (this s) = None ∧ canUsePool (this s) = false ∧
      what = "Can't create connection pool to " +:+ DATABASE (this s) ∧
      (getPool s).2 = s
  | Throw (soci_error msg) =>
      mPool (this s) = None ∧ canUsePool (this s) = true ∧
      if decide (hardware_concurrency (proc s) = 0) then
        msg = "Invalid pool size" ∧ mPool (this (getPool s).2) = None
      else
        ∃ k, k < calls_per_entry (this s) * hardware_concurrency (proc s) ∧
             refused_after (backend (proc s)) k msg
               (backend (proc (getPool s).2))
  | Abort => False
  end.
Proof.
  destruct (mPool (this s)) as [l|] eqn:Hp.
  { by rewrite (getPool_built s l Hp). }
  destruct (canUsePool (this s)) eqn:Hc.
  2:{ by rewrite (getPool_refused s Hp Hc). }
  destruct (decide (hardware_concurrency (proc s) = 0)) as [H0|H0].
  { by rewrite (getPool_empty s Hp Hc H0). }
  destruct (getPool_build_outcome s Hp Hc H0) as (r & bk & lg & ss & E & Hr & Ho).
  rewrite E. simpl. by destruct Hr as [[-> _]|[[msg ->] _]].
Qed.

(** The two errors that come from below, on samples: a machine without
    hardware threads, and a backing store that refuses the opening of the
    second pool entry, its third call. *)
Example getPool_errors_from_below :
  (getPool threadless_node).1 = Throw (soci_error "Invalid pool size") ∧
  mPool (this (getPool threadless_node).2) = None ∧
  backend (proc flaky_node) = [None; None; Some "too many clients"] ∧
  (getPool flaky_node).1 = Throw (soci_error "too many clients") ∧
  backend (proc (getPool flaky_node).2) = [].
Proof. vm_compute. done. Qed.

(** X3. When an error of the backing store interrupts the building of the
    pool (so the machine reports at least one hardware thread, and the pool
    itself was created), the pool is installed all the same: it has one
    entry per hardware thread, at least one of them was never opened or, on
    a networked backend, never sent the isolation statement; and the next
    [getPool] does not resume the work: it returns that pool and changes
    nothing. *)
Theorem getPool_interrupted s msg s' :
  mPool (this s) = None →
  hardware_concurrency (proc s) ≠ 0 →
  getPool s = (Throw (soci_error msg), s') →
  ∃ l ss,
    mPool (this s') = Some l ∧
    heap (proc s') !! l = Some (ObjPool ss) ∧
    length ss = hardware_concurrency (proc s) ∧
    (∃ x, x ∈ ss ∧ executed x = [] ∧
          (connectString x = None ∨ isSqlite (this s) = false)) ∧
    getPool s' = (Ok l, s').
Proof.
  intros Hp H0 E.
  destruct (canUsePool (this s)) eqn:Hc.
  2:{ by rewrite (getPool_refused s Hp Hc) in E. }
  destruct (getPool_build_outcome s Hp Hc H0) as (r & bk & lg & ss & E' & Hr & _).
  rewrite E' in E. injection E as -> <-. clear E'.
  destruct Hr as [[[=] _]|[_ (k & x' & left & -> & Hn & Hhalf)]].
  eexists _, _. split; [done|]. simpl. rewrite lookup_insert_eq.
  split; [done|]. split.
  { rewrite length_app, length_replicate. simpl. rewrite length_replicate. lia. }
  split; [|by apply getPool_built].
  exists x'. split; [apply elem_of_app; right; by left|].
  destruct Hhalf as [->|[Hsq ->]]; simpl; [by split; [|left]|by split; [|right]].
Qed.

Lemma getPool_interrupted_witness :
  ∃ l ss,
    mPool (this (getPool flaky_node).2) = Some l ∧
    heap (proc (getPool flaky_node).2) !! l = Some (ObjPool ss) ∧
    length ss = 2 ∧
    (∃ x, x ∈ ss ∧ executed x = [] ∧
          (connectString x = None ∨ isSqlite (this flaky_node) = false)) ∧
    getPool (getPool flaky_node).2 = (Ok l, (getPool flaky_node).2).
Proof.
  apply (getPool_interrupted flaky_node "too many clients").
  - reflexivity.
  - discriminate.
  - vm_compute. reflexivity.
Defined.

(** ** Heap bookkeeping *)

Lemma traced_lookup st txt (h : gmap loc object) k :
  traced st txt h !! k = h !! k ∨
  traced st txt h !! k = append_capture (txt +:+ newline) <$> h !! k.
Proof.
  destruct st as [c|]; simpl; [|by left].
  destruct (decide (c = k)) as [->|Hne].
  - right. by rewrite lookup_alter_eq.
  - left. by rewrite lookup_alter_ne.
Qed.

Lemma traced_statement st txt (h : gmap loc object) k q :
  traced st txt h !! k = Some (ObjStatement q) ↔ h !! k = Some (ObjStatement q).
Proof.
  destruct (traced_lookup st txt h k) as [->| ->]; [done|].
  destruct (h !! k) as [[]|]; simpl; split; intros; simplify_eq; done.
Qed.

Lemma traced_pool st txt (h : gmap loc object) k ss :
  traced st txt h !! k = Some (ObjPool ss) ↔ h !! k = Some (ObjPool ss).
Proof.
  destruct (traced_lookup st txt h k) as [->| ->]; [done|].
  destruct (h !! k) as [[]|]; simpl; split; intros; simplify_eq; done.
Qed.

Lemma traced_context st txt (h : gmap loc object) k name r :
  (∃ cap, traced st txt h !! k = Some (ObjSQLLogContext name r cap)) ↔
  (∃ cap, h !! k = Some (ObjSQLLogContext name r cap)).
Proof.
  destruct (traced_lookup st txt h k) as [->| ->]; [done|].
  destruct (h !! k) as [[]|]; simpl; split; intros [cap ?]; simplify_eq; eauto.
Qed.

Lemma tidy_getPool s r s' : tidy s → getPool s = (r, s') → tidy s'.
Proof.
  intros Ht E. destruct (mPool (this s)) as [l|] eqn:Hp.
  { rewrite (getPool_built s l Hp) in E. by simplify_eq. }
  destruct (canUsePool (this s)) eqn:Hc.
  2:{ rewrite (getPool_refused s Hp Hc) in E. by simplify_eq. }
  destruct (decide (hardware_concurrency (proc s) = 0)) as [H0|H0].
  { rewrite (getPool_empty s Hp Hc H0) in E. simplify_eq.
    by destruct Ht. }
  destruct (getPool_build_outcome s Hp Hc H0) as (r' & bk & lg & ss & E' & Hr & _).
  rewrite E' in E. simplify_eq. clear E'.
  pose proof (fresh_loc_free (heap (proc s))) as Hfresh.
  set (l := fresh (dom (heap (proc s)))) in *.
  assert (Forall (λ x, logStream_ x = None) ss) as Hss.
  { destruct Hr as [[_ ->]|[_ (k & x' & left & -> & _ & Hhalf)]].
    - apply Forall_replicate. unfold pooled. by destruct (isSqlite _).
    - apply Forall_app. split; [|constructor].
      + apply Forall_replicate. unfold pooled. by destruct (isSqlite _).
      + by destruct Hhalf as [->|[_ ->]].
      + by apply Forall_replicate. }
  destruct Ht as [T1 T2 T3 T4]. split; simpl.
  - intros c name r0 cap. destruct (decide (c = l)) as [->|Hne].
    + by rewrite lookup_insert_eq.
    + rewrite lookup_insert_ne by done. apply T1.
  - intros c Hc'. destruct (T2 c Hc') as (name & cap & Hl).
    exists name, cap. rewrite lookup_insert_ne; [done|]. intros <-. congruence.
  - intros l0 ss0. destruct (decide (l0 = l)) as [->|Hne].
    + rewrite lookup_insert_eq. by intros [= <-].
    + rewrite lookup_insert_ne by done. intros Hl0.
      destruct (T3 l0 ss0 Hl0) as [? _]. congruence.
  - intros p q. destruct (decide (p = l)) as [->|Hne].
    + by rewrite lookup_insert_eq.
    + rewrite lookup_insert_ne by done. apply T4.
Qed.

Lemma tidy_getPreparedStatement q s r s' :
  inv s → tidy s → getPreparedStatement q s = (r, s') → tidy s'.
Proof.
  intros Hinv Ht E. destruct (mStatements (this s) !! q) as [p|] eqn:Hq.
  { rewrite (getPreparedStatement_hit s q p Hq) in E. by simplify_eq. }
  rewrite (getPreparedStatement_miss s q Hq) in E.
  pose proof (fresh_loc_free (heap (proc s))) as Hfresh.
  set (p := fresh (dom (heap (proc s)))) in *.
  set (st := logStream_ (mSession (this s))) in *.
  destruct Ht as [T1 T2 T3 T4].
  assert (∀ k name r0,
    (∃ cap, traced st q (<[p := ObjStatement q]> (heap (proc s))) !! k =
              Some (ObjSQLLogContext name r0 cap)) ↔
    (∃ cap, heap (proc s) !! k = Some (ObjSQLLogContext name r0 cap))) as Hctx.
  { intros k name r0. rewrite traced_context.
    destruct (decide (k = p)) as [->|Hne].
    - rewrite lookup_insert_eq, Hfresh. split; intros [? ?]; done.
    - by rewrite lookup_insert_ne. }
  assert (∀ k ss,
    traced st q (<[p := ObjStatement q]> (heap (proc s))) !! k = Some (ObjPool ss) ↔
    heap (proc s) !! k = Some (ObjPool ss)) as Hpool.
  { intros k ss. rewrite traced_pool.
    destruct (decide (k = p)) as [->|Hne].
    - by rewrite lookup_insert_eq, Hfresh.
    - by rewrite lookup_insert_ne. }
  assert (∀ k q',
    traced st q (<[p := ObjStatement q]> (heap (proc s))) !! k = Some (ObjStatement q') ↔
    (k = p ∧ q' = q) ∨ (k ≠ p ∧ heap (proc s) !! k = Some (ObjStatement q'))) as Hstmt.
  { intros k q'. rewrite traced_statement.
    destruct (decide (k = p)) as [->|Hne].
    - rewrite lookup_insert_eq. split.
      + intros [= <-]. by left.
      + intros [[_ ->]|[? _]]; done.
    - rewrite lookup_insert_ne by done. split; [by right|].
      intros [[? _]|[_ ?]]; done. }
  destruct (backend (proc s)) as [|[msg|] rest] eqn:Hbk; simplify_eq.
  1,3: split; simpl.
  1,5: intros c name r0 cap Hc; destruct (proj1 (Hctx c name r0) (ex_intro _ cap Hc))
         as [cap0 Hc0]; by eapply T1.
  1,4: intros c Hc; destruct (T2 c Hc) as (name & cap & Hl);
         destruct (proj2 (Hctx c name mSession_ref) (ex_intro _ cap Hl)) as [cap' ?];
         eauto.
  1,3: intros l ss Hl; apply Hpool in Hl; by apply T3.
  1,2: intros k q' [[-> ->]|[Hne Hk]]%Hstmt;
         [by rewrite lookup_insert_eq|];
         rewrite lookup_insert_ne; [by apply T4|];
         intros <-; specialize (T4 _ _ Hk); congruence.
  split; simpl.
  - intros c name r0 cap. destruct (decide (c = p)) as [->|Hne].
    + by rewrite lookup_delete_eq.
    + rewrite lookup_delete_ne by done. intros Hc.
      destruct (proj1 (Hctx c name r0) (ex_intro _ cap Hc)) as [cap0 Hc0].
      by eapply T1.
  - intros c Hc. destruct (T2 c Hc) as (name & cap & Hl).
    destruct (proj2 (Hctx c name mSession_ref) (ex_intro _ cap Hl)) as [cap' ?].
    exists name, cap'. rewrite lookup_delete_ne; [done|]. intros <-. congruence.
  - intros l ss. destruct (decide (l = p)) as [->|Hne].
    + by rewrite lookup_delete_eq.
    + rewrite lookup_delete_ne by done. intros Hl. apply Hpool in Hl. by apply T3.
  - intros k q'. destruct (decide (k = p)) as [->|Hne].
    + by rewrite lookup_delete_eq.
    + rewrite lookup_delete_ne by done. intros [[? _]|[_ Hk]]%Hstmt; [done|].
      by apply T4.
Qed.

Lemma tidy_captureAndLogSQL name s r s' :
  tidy s → captureAndLogSQL name s = (r, s') → tidy s'.
Proof.
  intros [T1 T2 T3 T4] E. rewrite captureAndLogSQL_run in E. simplify_eq.
  pose proof (fresh_loc_free (heap (proc s))) as Hfresh.
  set (c := fresh (dom (heap (proc s)))) in *.
  split; simpl.
  - intros c0 name0 r0 cap. destruct (decide (c0 = c)) as [->|Hne].
    + rewrite lookup_insert_eq. by intros [= _ <- _].
    + rewrite lookup_insert_ne by done. apply T1.
  - intros c0 [= <-]. rewrite lookup_insert_eq. eauto.
  - intros l ss. destruct (decide (l = c)) as [->|Hne].
    + by rewrite lookup_insert_eq.
    + rewrite lookup_insert_ne by done. apply T3.
  - intros p q. destruct (decide (p = c)) as [->|Hne].
    + by rewrite lookup_insert_eq.
    + rewrite lookup_insert_ne by done. apply T4.
Qed.

Lemma tidy_SQLLogContext_dtor c s r s' :
  tidy s → SQLLogContext_dtor c s = (r, s') → tidy s'.
Proof.
  intros Ht E.
  destruct (heap (proc s) !! c) as [[q|ss|name sess cap]|] eqn:Hc.
  1,2,4: rewrite SQLLogContext_dtor_stray in E by (by rewrite Hc); by simplify_eq.
  pose proof (tidy_contexts s Ht c name sess cap Hc) as ->.
  destruct (SQLLogContext_dtor_run c s name mSession_ref cap Hc) as (h & d & E' & -> & ->).
  rewrite E' in E. simplify_eq. clear E'.
  destruct Ht as [T1 T2 T3 T4]. split; simpl.
  - intros c0 name0 r0 cap0. destruct (decide (c0 = c)) as [->|Hne].
    + by rewrite lookup_delete_eq.
    + rewrite lookup_delete_ne by done. apply T1.
  - done.
  - intros l ss. destruct (decide (l = c)) as [->|Hne].
    + by rewrite lookup_delete_eq.
    + rewrite lookup_delete_ne by done. apply T3.
  - intros p q. destruct (decide (p = c)) as [->|Hne].
    + by rewrite lookup_delete_eq.
    + rewrite lookup_delete_ne by done. apply T4.
Qed.

Lemma tidy_run c s r s' : inv s → tidy s → run c s = (r, s') → tidy s'.
Proof.
  intros Hinv Ht E.
  assert (s' = (run c s).2) as -> by (by rewrite E). clear E.
  destruct c as [| |q|name|c]; cbn [run].
  - destruct Ht as [T1 T2 T3 T4]. destruct s as [p d].
    unfold modify, on_proc, registerDrivers. simpl in *.
    by destruct (negb (gDriversRegistered p)).
  - rewrite ignore_state. destruct (getPool s) as [r' s'] eqn:E.
    by eapply tidy_getPool.
  - rewrite ignore_state. destruct (getPreparedStatement q s) as [r' s'] eqn:E.
    by eapply tidy_getPreparedStatement.
  - rewrite ignore_state. destruct (captureAndLogSQL name s) as [r' s'] eqn:E.
    by eapply tidy_captureAndLogSQL.
  - destruct (SQLLogContext_dtor c s) as [r' s'] eqn:E.
    by eapply tidy_SQLLogContext_dtor.
Qed.

Lemma tidy_steps s s' : steps s s' → inv s → tidy s → tidy s'.
Proof.
  induction 1 as [s|s s' s'' Hsteps IH (c & r & E & _)]; intros Hinv Ht; [done|].
  destruct (steps_preserve s s' Hsteps Hinv) as [Hinv' _].
  eapply tidy_run; [exact Hinv'|by apply IH|exact E].
Qed.

Lemma reachable_tidy s : reachable s → tidy s.
Proof.
  intros (pg & hw & sc & uri & d & p & E & Hs).
  destruct (Database_new_spec uri (Process_start pg hw sc)) as (r & p' & E' & Hr & Hh & _).
  rewrite E' in E. simplify_eq.
  destruct Hr as [[= ->]|[msg [=]]].
  apply (tidy_steps _ _ Hs); [by split|].
  split; simpl; rewrite ?Hh; simpl; try done.
  all: intros; by rewrite lookup_empty in *.
Qed.

(** X4. In every state a manager can be in, the log stream of the primary
    session is either not installed or points at a capture context that is
    alive and attached to that session, and no pooled session has a log
    stream: the stream pointer never dangles. *)
Theorem log_stream_never_dangles s :
  reachable s →
  (∀ c, logStream_ (mSession (this s)) = Some c →
        ∃ name cap,
          heap (proc s) !! c = Some (ObjSQLLogContext name mSession_ref cap)) ∧
  (∀ l ss x, heap (proc s) !! l = Some (ObjPool ss) → x ∈ ss →
             logStream_ x = None).
Proof.
  intros Hs. pose proof (reachable_tidy s Hs) as Ht. split.
  - apply (tidy_stream s Ht).
  - intros l ss x Hl Hx. destruct (tidy_pool s Ht l ss Hl) as [_ Hall].
    by apply (proj1 (Forall_forall _ _) Hall).
Qed.

Lemma log_stream_never_dangles_witness :
  (∀ c, logStream_ (mSession (this captured_node)) = Some c →
        ∃ name cap,
          heap (proc captured_node) !! c =
            Some (ObjSQLLogContext name mSession_ref cap)) ∧
  (∀ l ss x, heap (proc captured_node) !! l = Some (ObjPool ss) → x ∈ ss →
             logStream_ x = None).
Proof.
  apply (log_stream_never_dangles captured_node).
  exists false, 4, [], "sqlite3://stellar.db". eexists _, _.
  split; [vm_compute; reflexivity|].
  eapply steps_next; [eapply steps_next; [eapply steps_next;
    [eapply steps_next; [apply steps_refl|]|]|]|].
  - exists (call_captureAndLogSQL "first"), (Ok ()).
    split; [vm_compute; reflexivity|discriminate].
  - exists (call_getPreparedStatement "A"), (Ok ()).
    split; [vm_compute; reflexivity|discriminate].
  - exists (call_getPreparedStatement "B"), (Ok ()).
    split; [vm_compute; reflexivity|discriminate].
  - exists (call_getPreparedStatement "C"), (Ok ()).
    split; [vm_compute; reflexivity|discriminate].
Defined.

(** X5. In every state a manager can be in, the statement objects on the
    heap are exactly the cached ones, each under the text it was prepared
    with, and the only pool object on the heap is the one the manager
    holds: a preparation or a pool build that fails leaves nothing behind
    that the manager does not own, and nothing the manager owns is gone. *)
Theorem heap_owned_by_manager s :
  reachable s →
  (∀ p q, heap (proc s) !! p = Some (ObjStatement q) ↔
          mStatements (this s) !! q = Some p) ∧
  (∀ l, (∃ ss, heap (proc s) !! l = Some (ObjPool ss)) ↔
        mPool (this s) = Some l).
Proof.
  intros Hs.
  pose proof (reachable_tidy s Hs) as Ht.
  pose proof (reachable_inv s Hs) as Hinv.
  split.
  - intros p q. split; [apply (tidy_statements s Ht)|apply (inv_statements s Hinv)].
  - intros l. split.
    + intros [ss Hl]. by destruct (tidy_pool s Ht l ss Hl).
    + intros Hl. destruct (inv_pool s Hinv l Hl) as (ss & ? & _). eauto.
Qed.

Lemma heap_owned_by_manager_witness :
  (∀ p q, heap (proc pooled_node_later) !! p = Some (ObjStatement q) ↔
          mStatements (this pooled_node_later) !! q = Some p) ∧
  (∀ l, (∃ ss, heap (proc pooled_node_later) !! l = Some (ObjPool ss)) ↔
        mPool (this pooled_node_later) = Some l).
Proof.
  apply (heap_owned_by_manager pooled_node_later).
  exists true, 4, [], "postgresql://dbname=stellar". eexists _, _.
  split; [vm_compute; reflexivity|].
  eapply steps_next; [eapply steps_next; [eapply steps_next; [apply steps_refl|]|]|].
  - exists call_getPool, (Ok ()).
    split; [vm_compute; reflexivity|discriminate].
  - exists (call_getPreparedStatement "SELECT 1"), (Ok ()).
    split; [vm_compute; reflexivity|discriminate].
  - exists call_getPool, (Ok ()).
    split; [vm_compute; reflexivity|discriminate].
Defined.

(** ** Capture scopes from beginning to end *)

Lemma append_assoc_string (a b c : string) : (a +:+ b) +:+ c = a +:+ (b +:+ c).
Proof.
  induction a as [|ch a IH]; [done|].
  change (String ch ((a +:+ b) +:+ c) = String ch (a +:+ (b +:+ c))). by rewrite IH.
Qed.

Lemma append_nil_string (a : string) : a +:+ "" = a.
Proof.
  induction a as [|ch a IH]; [done|].
  change (String ch (a +:+ "") = String ch a). by rewrite IH.
Qed.

Lemma run_all_app cs1 cs2 s : run_all (cs1 ++ cs2) s = run_all cs2 (run_all cs1 s).
Proof. revert s. induction cs1 as [|c cs1 IH]; intros s; [done|]. simpl. apply IH. Qed.

Lemma getPreparedStatement_answered s q :
  mStatements (this s) !! q = None → no_faults (proc s) →
  let p := fresh (dom (heap (proc s))) in
  getPreparedStatement q s =
    (Ok (MkStatementContext p),
     MkState (with_backend (tail (backend (proc s)))
                (with_heap (traced (logStream_ (mSession (this s))) q
                              (<[p := ObjStatement q]> (heap (proc s))))
                   (proc s)))
             (with_mStatements (<[q := p]> (mStatements (this s))) (this s))).
Proof.
  intros Hq Hnf p. rewrite (getPreparedStatement_miss s q Hq). fold p.
  unfold no_faults in Hnf.
  destruct (backend (proc s)) as [|[msg|] rest]; [done| |done].
  by inversion Hnf.
Qed.

(** Under a capture, with a backing store that answers, every request for
    an uncached text adds that text to the buffer and nothing to the log. *)
Lemma capture_collects c name : ∀ queries t buf,
  logStream_ (mSession (this t)) = Some c →
  heap (proc t) !! c = Some (ObjSQLLogContext name mSession_ref buf) →
  no_faults (proc t) → NoDup queries →
  (∀ q, q ∈ queries → mStatements (this t) !! q = None) →
  heap (proc (run_all (call_getPreparedStatement <$> queries) t)) !! c =
    Some (ObjSQLLogContext name mSession_ref (buf +:+ trace_of queries)) ∧
  logged (proc (run_all (call_getPreparedStatement <$> queries) t)) = logged (proc t).
Proof.
  induction queries as [|q qs IH]; intros t buf Hst Hc Hnf Hnd Hun.
  - simpl. by rewrite append_nil_string.
  - inversion Hnd as [|? ? Hq Hnd']; subst.
    cbn [fmap list_fmap run_all run]. rewrite ignore_state.
    assert (mStatements (this t) !! q = None) as Hmiss
      by (apply Hun; by left).
    rewrite (getPreparedStatement_answered t q Hmiss Hnf).
    pose proof (fresh_loc_free (heap (proc t))) as Hfresh.
    set (p := fresh (dom (heap (proc t)))) in *.
    assert (p ≠ c) as Hpc by (intros ->; congruence).
    cbn [snd].
    set (t2 := MkState _ _).
    destruct (IH t2 (buf +:+ (q +:+ newline))) as [Hheap Hlog].
    + done.
    + subst t2. simpl. rewrite Hst. simpl.
      by rewrite lookup_alter_eq, lookup_insert_ne, Hc.
    + subst t2. unfold no_faults in *. simpl.
      destruct (backend (proc t)) as [|o rest]; [done|]. by inversion Hnf.
    + done.
    + intros q' Hq'. subst t2. simpl. rewrite lookup_insert_ne; [|by intros ->].
      apply Hun. by right.
    + split; [|by rewrite Hlog].
      fold (fmap (M := list) call_getPreparedStatement qs).
      rewrite Hheap. simpl. by rewrite !append_assoc_string.
Qed.

(** X6. A capture scope seen whole: on a manager whose backing store
    answers, beginning a capture, requesting prepared statements for
    distinct one-line texts that are not cached yet, and ending the capture
    logs the block with exactly those texts, one tagged line each, in the
    order they were requested; the session is left without a log stream. *)
Theorem capture_scope_logs_queries s name queries :
  no_faults (proc s) → NoDup queries →
  Forall (λ q, one_line q = true) queries →
  (∀ q, q ∈ queries → mStatements (this s) !! q = None) →
  ∃ c s1 s3,
    captureAndLogSQL name s = (Ok c, s1) ∧
    SQLLogContext_dtor c (run_all (call_getPreparedStatement <$> queries) s1) =
      (Ok (), s3) ∧
    logged (proc s3) =
      logged (proc s) ++
      (Line INFO "Database" <$>
         ["" ; "" ; "[SQL] -----------------------" ;
          "[SQL] begin capture: " +:+ name ;
          "[SQL] -----------------------"] ++
         ((λ q, "[SQL:" +:+ name +:+ "] " +:+ q) <$> queries) ++
         ["[SQL] -----------------------" ;
          "[SQL] end capture: " +:+ name ;
          "[SQL] -----------------------" ; "" ; ""]) ∧
    logStream_ (mSession (this s3)) = None.
Proof.
  intros Hnf Hnd Hone Hun.
  rewrite captureAndLogSQL_run.
  set (c := fresh (dom (heap (proc s)))).
  set (s1 := put s _ _ _ _).
  destruct (capture_collects c name queries s1 "") as [Hheap Hlog];
    [done|by (subst s1; simpl; rewrite lookup_insert_eq)|done|done|done|].
  change ("" +:+ trace_of queries) with (trace_of queries) in Hheap.
  destruct (SQLLogContext_dtor_run c _ name mSession_ref _ Hheap)
    as (h & d & E & -> & ->).
  exists c, s1. eexists. split; [done|]. split; [exact E|].
  cbn [put proc this logged mSession with_mSession streaming logStream_].
  rewrite Hlog, captured_lines_trace by done. by split.
Qed.

Lemma capture_scope_logs_queries_witness :
  ∃ c s1 s3,
    captureAndLogSQL "load" file_node = (Ok c, s1) ∧
    SQLLogContext_dtor c
      (run_all (call_getPreparedStatement <$> ["A"; "B"; "C"]) s1) = (Ok (), s3) ∧
    logged (proc s3) =
      logged (proc file_node) ++
      (Line INFO "Database" <$>
         ["" ; "" ; "[SQL] -----------------------" ;
          "[SQL] begin capture: load" ;
          "[SQL] -----------------------" ;
          "[SQL:load] A" ; "[SQL:load] B" ; "[SQL:load] C" ;
          "[SQL] -----------------------" ;
          "[SQL] end capture: load" ;
          "[SQL] -----------------------" ; "" ; ""]) ∧
    logStream_ (mSession (this s3)) = None.
Proof.
  apply (capture_scope_logs_queries file_node "load" ["A"; "B"; "C"]).
  - constructor.
  - apply (bool_decide_unpack _). vm_compute. exact I.
  - repeat constructor.
  - intros q _. reflexivity.
Defined.

(** X7. Ending a capture detaches the session, whichever capture its log
    stream pointed at: the context is destroyed, every other object on the
    heap is as before, and from then on tracing a query changes nothing,
    so a capture begun earlier and still alive receives no further line. *)
Theorem ending_capture_detaches s c name sess cap :
  reachable s →
  heap (proc s) !! c = Some (ObjSQLLogContext name sess cap) →
  ∃ s',
    SQLLogContext_dtor c s = (Ok (), s') ∧
    logStream_ (mSession (this s')) = None ∧
    heap (proc s') = delete c (heap (proc s)) ∧
    mStatements (this s') = mStatements (this s) ∧
    mPool (this s') = mPool (this s) ∧
    ∀ query, log_query mSession_ref query s' = (Ok (), s').
Proof.
  intros Hs Hc.
  pose proof (tidy_contexts s (reachable_tidy s Hs) c name sess cap Hc) as ->.
  destruct (SQLLogContext_dtor_run c s name mSession_ref cap Hc)
    as (h & d & E & -> & ->).
  eexists. split; [exact E|]. by simpl.
Qed.

Lemma ending_capture_detaches_witness :
  ∃ s',
    SQLLogContext_dtor 1%positive captured_node = (Ok (), s') ∧
    logStream_ (mSession (this s')) = None ∧
    heap (proc s') = delete 1%positive (heap (proc captured_node)) ∧
    mStatements (this s') = mStatements (this captured_node) ∧
    mPool (this s') = mPool (this captured_node) ∧
    ∀ query, log_query mSession_ref query s' = (Ok (), s').
Proof.
  apply (ending_capture_detaches captured_node 1%positive "first" mSession_ref
           (trace_of ["A"; "B"; "C"])).
  - exists false, 4, [], "sqlite3://stellar.db". eexists _, _.
    split; [vm_compute; reflexivity|].
    eapply steps_next; [eapply steps_next; [eapply steps_next;
      [eapply steps_next; [apply steps_refl|]|]|]|].
    + exists (call_captureAndLogSQL "first"), (Ok ()).
      split; [vm_compute; reflexivity|discriminate].
    + exists (call_getPreparedStatement "A"), (Ok ()).
      split; [vm_compute; reflexivity|discriminate].
    + exists (call_getPreparedStatement "B"), (Ok ()).
      split; [vm_compute; reflexivity|discriminate].
    + exists (call_getPreparedStatement "C"), (Ok ()).
      split; [vm_compute; reflexivity|discriminate].
  - vm_compute. reflexivity.
Defined.

(** ** The lines of a captured text *)

Lemma take_line_spec rd :
  one_line (take_line rd).1 = true ∧
  (rd = (take_line rd).1 +:+ newline +:+ (take_line rd).2 ∨
   rd = (take_line rd).1 ∧ (take_line rd).2 = "").
Proof.
  induction rd as [|ch rd [IH1 IH2]]; [by split; [|right]|].
  simpl. destruct (Ascii.eqb ch _) eqn:Ech.
  - apply Ascii.eqb_eq in Ech as ->. simpl. split; [done|by left].
  - destruct (take_line rd) as [buf rd'] eqn:E. simpl in *.
    rewrite Ech, IH1. split; [done|].
    destruct IH2 as [IH2|[IH2 ->]].
    + left. change (String ch rd = String ch (buf +:+ newline +:+ rd')). by f_equal.
    + right. by rewrite <- IH2.
Qed.

Lemma ends_with_newline_one_line t : one_line t = true → ends_with_newline t = false.
Proof.
  induction t as [|ch t IH]; [done|]. simpl.
  intros [Hch Ht]%andb_true_iff. apply negb_true_iff in Hch.
  destruct t; [done|]. by apply IH.
Qed.

Lemma ends_with_newline_app (a b : string) :
  b ≠ "" → ends_with_newline (a +:+ b) = ends_with_newline b.
Proof.
  intros Hb. induction a as [|ch a IH]; [done|].
  change (ends_with_newline (String ch (a +:+ b)) = ends_with_newline b).
  simpl. destruct (a +:+ b) eqn:E; [|done].
  destruct a, b; done.
Qed.

Lemma read_lines_closed fuel : ∀ rd,
  String.length rd < fuel →
  Forall (λ buf, one_line buf = true) (read_lines fuel rd) ∧
  trace_of (read_lines fuel rd) =
    match rd with
    | EmptyString => ""
    | _ => if ends_with_newline rd then rd else rd +:+ newline
    end.
Proof.
  induction fuel as [|fuel IH]; intros rd Hlen; [lia|].
  destruct rd as [|ch0 rd0]; [by split|].
  remember (String ch0 rd0) as rd eqn:Hrd.
  assert (getline rd = Some (take_line rd)) as Hg by (by subst rd).
  cbn [read_lines]. rewrite Hg.
  destruct (take_line_spec rd) as [Hone Hsplit].
  destruct (take_line rd) as [buf rd'] eqn:E. cbn [fst snd] in *.
  pose proof (getline_shrinks rd buf rd' Hg) as Hshrink.
  destruct (IH rd') as [Hall Htrace]; [lia|].
  split; [by constructor|].
  cbn [trace_of foldr]. fold (trace_of (read_lines fuel rd')). rewrite Htrace.
  clear Hrd Hg E Hlen Hshrink Htrace Hall.
  destruct Hsplit as [Hsplit|[Hsplit ->]].
  - destruct rd' as [|ch1 rd1].
    + assert (ends_with_newline rd = true) as ->; [|done].
      rewrite Hsplit. by rewrite ends_with_newline_app.
    + assert (ends_with_newline rd = ends_with_newline (String ch1 rd1)) as ->.
      { rewrite Hsplit, <- append_assoc_string. by apply ends_with_newline_app. }
      destruct (ends_with_newline (String ch1 rd1)); [done|].
      by rewrite Hsplit, !append_assoc_string.
  - subst buf. by rewrite (ends_with_newline_one_line _ Hone).
Qed.

(** X8. The loop of [~SQLLogContext] loses and reorders nothing: for any
    captured text, the lines it logs contain no newline, and joined again,
    each followed by a newline, they give back the captured text (with a
    newline added when the text is not empty and did not end with one). *)
Theorem captured_lines_rejoin captured :
  Forall (λ buf, one_line buf = true) (captured_lines captured) ∧
  trace_of (captured_lines captured) =
    match captured with
    | EmptyString => ""
    | _ => if ends_with_newline captured then captured
           else captured +:+ newline
    end.
Proof. unfold captured_lines. apply read_lines_closed. lia. Qed.

(** ** Construction *)

(** X9. How construction ends is decided by the first two answers of the
    backing store: refused at [open], or opened and refused the tuning
    statement, the constructor throws that error and there is no manager;
    otherwise the manager exists with its session opened and tuned, no
    pool and an empty cache.  In every case the drivers are registered, the
    line announcing the connection is logged, once, and the heap is as it
    was. *)
Theorem Database_new_outcome uri p :
  (Database_new uri p).1 =
    match backend p with
    | Some msg :: _ => Throw (soci_error msg)
    | None :: Some msg :: _ => Throw (soci_error msg)
    | _ => Ok (MkDatabase uri (primary_session uri) None ∅)
    end ∧
  gDriversRegistered (Database_new uri p).2 = true ∧
  logged (Database_new uri p).2 =
    logged p ++ [Line INFO "Database" ("Connecting to: " +:+ uri)] ∧
  heap (Database_new uri p).2 = heap p.
Proof.
  destruct p as [pg reg fs hw bk lg hp].
  unfold Database_new, Database_ctor, CLOG, session_open, setSerializable, session_exec,
    log_query, backend_call, update_session, read_session, isSqlite, primary_session,
    members_init, new_session, registerDrivers.
  unfold_M. simp_state.
  destruct reg, (contains "sqlite3:" uri) eqn:Esq.
  all: destruct bk as [|[msg|] [|[msg'|] rest]]; simp_state; rewrite ?Esq; simp_state.
  all: done.
Qed.

Lemma Database_new_factories uri p :
  factories (Database_new uri p).2 = factories (registerDrivers p) ∧
  gDriversRegistered (Database_new uri p).2 = true.
Proof.
  destruct (Database_ctor_spec uri p) as (r & bk & lg & x & E & _).
  unfold Database_new. rewrite E.
  assert (gDriversRegistered (registerDrivers p) = true) as Hreg.
  { unfold registerDrivers. by destruct (gDriversRegistered p) eqn:Hp. }
  by destruct r.
Qed.

Lemma construct_all_registered uris : ∀ p,
  gDriversRegistered p = true →
  factories (construct_all uris p) = factories p.
Proof.
  induction uris as [|uri uris IH]; intros p Hreg; [done|].
  unfold construct_all in *. simpl. rewrite IH.
  - destruct (Database_new_factories uri p) as [-> _].
    unfold registerDrivers. by rewrite Hreg.
  - apply Database_new_factories.
Qed.

(** X10. However many managers are constructed in a process, and whether
    or not their construction succeeds, the backend factories are
    registered by the first construction and never again: sqlite3 once,
    and postgresql once when the build has it. *)
Theorem factories_registered_once uri uris use_postgres hw script :
  factories (construct_all (uri :: uris) (Process_start use_postgres hw script)) =
    "sqlite3" :: (if use_postgres then ["postgresql"] else []).
Proof.
  change (construct_all (uri :: uris) (Process_start use_postgres hw script))
    with (construct_all uris (Database_new uri (Process_start use_postgres hw script)).2).
  rewrite construct_all_registered by apply Database_new_factories.
  destruct (Database_new_factories uri (Process_start use_postgres hw script)) as [-> _].
  unfold registerDrivers. simpl. by destruct use_postgres.
Qed.

(** ** initialize *)

Lemma for_each_app {A} (l1 l2 : list A) (body : A → M unit) s :
  for_each (l1 ++ l2) body s =
    match for_each l1 body s with
    | (Ok _, s1) => for_each l2 body s1
    | r => r
    end.
Proof.
  revert s. induction l1 as [|x l1 IH]; intros s; [done|].
  simpl. unfold mbind, M_bind.
  destruct (body x s) as [[[]|e|] s1]; [apply IH|done..].
Qed.

Lemma initialize_for_each dropAll s :
  initialize dropAll s = for_each initialize_order dropAll s.
Proof.
  unfold initialize, initialize_order. cbn [for_each]. unfold mbind, M_bind.
  repeat match goal with
         | |- context [dropAll ?o ?t] =>
             destruct (dropAll o t) as [[[]|?|] ?]; try done
         end.
Qed.

(** X11. [initialize] drops the tables class by class in the order of the
    source and stops at the first class whose [dropAll] throws: that
    exception is what the caller gets, from the state that call left; the
    classes after it are not dropped and the drops already made are not
    undone. *)
Theorem initialize_stops_at_first_failure dropAll before owner after s s1 e s2 :
  [AccountFrame_tables; OfferFrame_tables; TrustFrame_tables;
   OverlayManagerImpl_tables; PersistentState_tables;
   LedgerHeaderFrame_tables; TransactionFrame_tables] = before ++ owner :: after →
  for_each before dropAll s = (Ok (), s1) →
  dropAll owner s1 = (Throw e, s2) →
  initialize dropAll s = (Throw e, s2).
Proof.
  intros Horder Hbefore Howner.
  rewrite initialize_for_each. unfold initialize_order. rewrite Horder.
  rewrite for_each_app, Hbefore. simpl. unfold mbind, M_bind. by rewrite Howner.
Qed.

Lemma initialize_stops_at_first_failure_witness :
  (initialize sample_dropAll wearing_node).1 = Throw (soci_error "disk I/O error") ∧
  executed (mSession (this (initialize sample_dropAll wearing_node).2)) =
    ["PRAGMA journal_mode = WAL";
     "DROP TABLE IF EXISTS Accounts"; "DROP TABLE IF EXISTS Offers"].
Proof.
  rewrite (initialize_stops_at_first_failure sample_dropAll
             [AccountFrame_tables; OfferFrame_tables] TrustFrame_tables
             [OverlayManagerImpl_tables; PersistentState_tables;
              LedgerHeaderFrame_tables; TransactionFrame_tables]
             wearing_node
             (for_each [AccountFrame_tables; OfferFrame_tables]
                sample_dropAll wearing_node).2
             (soci_error "disk I/O error")
             (sample_dropAll TrustFrame_tables
                (for_each [AccountFrame_tables; OfferFrame_tables]
                   sample_dropAll wearing_node).2).2).
  - split; vm_compute; reflexivity.
  - reflexivity.
  - vm_compute. reflexivity.
  - vm_compute. reflexivity.
Defined.

(** When every [dropAll] returns, [initialize] returns and has run the
    seven of them, each once, in the order of the source. *)
Lemma initialize_runs_all dropAll s s' :
  for_each initialize_order dropAll s = (Ok (), s') →
  initialize dropAll s = (Ok (), s').
Proof. intros E. by rewrite initialize_for_each. Qed.

(** ** Timers *)

Ltac timer_scope :=
  let entityName := fresh "entityName" in
  let registry := fresh "registry" in
  let E := fresh "E" in
  let other := fresh "other" in
  let Hne := fresh "Hne" in
  intros entityName registry;
  unfold getInsertTimer, getSelectTimer, getDeleteTimer, getUpdateTimer,
    NewTimer, TimeScope, TimerContext_dtor;
  match goal with
  | |- context [registry !! ?n] => destruct (registry !! n) eqn:E
  end; simpl;
  (split;
   [rewrite lookup_alter_eq, ?lookup_insert_eq, ?E; done
   |intros other Hne; rewrite lookup_alter_ne, ?lookup_insert_ne by done; done]).

(** X12. Each of the four timer getters opens a scope on the timer named
    (database, insert | select | delete | update, entity): when the scope
    ends that timer, created on first use, has one sample more, and no
    other metric of the registry, the other three categories and other
    entities included, has changed. *)
Theorem timers_record_one_sample :
  one_sample_under "insert" getInsertTimer ∧
  one_sample_under "select" getSelectTimer ∧
  one_sample_under "delete" getDeleteTimer ∧
  one_sample_under "update" getUpdateTimer.
Proof.
  split; [|split; [|split]]; timer_scope.
Qed.

(** ** Registration, seen from the manager *)

Lemma run_registration c s :
  gDriversRegistered (proc s) = true →
  gDriversRegistered (proc (run c s).2) = true ∧
  factories (proc (run c s).2) = factories (proc s) ∧
  USE_POSTGRES (proc (run c s).2) = USE_POSTGRES (proc s).
Proof.
  intros Hreg. destruct c as [| |q|name|c]; cbn [run].
  - unfold modify, on_proc, registerDrivers. simpl. rewrite Hreg. by simpl.
  - rewrite ignore_state. destruct (mPool (this s)) as [l|] eqn:Hp.
    { by rewrite (getPool_built s l Hp). }
    destruct (canUsePool (this s)) eqn:Hc.
    2:{ by rewrite (getPool_refused s Hp Hc). }
    destruct (decide (hardware_concurrency (proc s) = 0)) as [H0|H0].
    { by rewrite (getPool_empty s Hp Hc H0). }
    destruct (getPool_build s Hp Hc H0) as (r & bk & lg & ss & E & _).
    by rewrite E.
  - rewrite ignore_state. destruct (mStatements (this s) !! q) as [p|] eqn:Hq.
    { by rewrite (getPreparedStatement_hit s q p Hq). }
    rewrite (getPreparedStatement_miss s q Hq).
    by destruct (backend (proc s)) as [|[msg|] rest].
  - rewrite ignore_state. by rewrite captureAndLogSQL_run.
  - destruct (heap (proc s) !! c) as [[q|ss|name sess cap]|] eqn:Hc.
    1,2,4: by rewrite SQLLogContext_dtor_stray by (by rewrite Hc).
    destruct (SQLLogContext_dtor_run c s name sess cap Hc) as (h & d & E & _).
    by rewrite E.
Qed.

Lemma steps_registration s s' :
  steps s s' → gDriversRegistered (proc s) = true →
  gDriversRegistered (proc s') = true ∧
  factories (proc s') = factories (proc s) ∧
  USE_POSTGRES (proc s') = USE_POSTGRES (proc s).
Proof.
  induction 1 as [s|s s' s'' _ IH (c & r & E & _)]; intros Hreg; [done|].
  destruct (IH Hreg) as (Hreg' & Hfs & Hpg).
  destruct (run_registration c s' Hreg') as (Hreg'' & Hfs' & Hpg').
  rewrite E in Hreg'', Hfs', Hpg'. simpl in *.
  split; [done|]. split; congruence.
Qed.

(** X13. In every state a manager can be in, the drivers are registered
    and the process has registered each backend factory exactly once:
    neither the calls the manager serves nor further calls to
    [registerDrivers] register anything again. *)
Theorem drivers_stay_registered s :
  reachable s →
  gDriversRegistered (proc s) = true ∧
  factories (proc s) =
    "sqlite3" :: (if USE_POSTGRES (proc s) then ["postgresql"] else []).
Proof.
  intros (pg & hw & sc & uri & d & p & E & Hs).
  assert (gDriversRegistered p = true ∧
          factories p = "sqlite3" :: (if USE_POSTGRES p then ["postgresql"] else []))
    as [Hreg Hfs].
  { destruct (Database_ctor_spec uri (Process_start pg hw sc))
      as (r & bk & lg & x & E' & _).
    unfold Database_new in E. rewrite E' in E.
    destruct r; simplify_eq. unfold registerDrivers. simpl. by destruct pg. }
  destruct (steps_registration _ _ Hs Hreg) as (Hreg' & Hfs' & Hpg').
  simpl in *. by rewrite Hfs', Hpg'.
Qed.

Lemma drivers_stay_registered_witness :
  gDriversRegistered (proc pooled_node_later) = true ∧
  factories (proc pooled_node_later) = ["sqlite3"; "postgresql"].
Proof.
  apply (drivers_stay_registered pooled_node_later).
  exists true, 4, [], "postgresql://dbname=stellar". eexists _, _.
  split; [vm_compute; reflexivity|].
  eapply steps_next; [eapply steps_next; [eapply steps_next; [apply steps_refl|]|]|].
  - exists call_getPool, (Ok ()).
    split; [vm_compute; reflexivity|discriminate].
  - exists (call_getPreparedStatement "SELECT 1"), (Ok ()).
    split; [vm_compute; reflexivity|discriminate].
  - exists call_getPool, (Ok ()).
    split; [vm_compute; reflexivity|discriminate].
Defined.
